(** * check_chats: windowed retrieval, keyword search and export of the
      comment feed of a recorded stream

    A shallow embedding of [check_chats.py] and the properties of its
    page fetchers, retrieval loops, keyword matcher and exporter.

    Conventions of the embedding.
    - A Python [float] is represented by the rational it denotes ([Qc],
      rationals in lowest terms, so that Leibniz equality is numeric
      equality [==]); float arithmetic is taken as exact.  An [int] is a [Z].
    - A [datetime] is represented by its instant, in seconds.
    - A [str] is represented by its UTF-8 encoding, a string of bytes; a
      character of the [str] is a byte that is no continuation byte
      together with the continuation bytes that follow it.
    - The remote endpoint is a function from the number of requests already
      sent and the request to the outcome of the request; code that talks to
      it threads that number through a state and exception monad.
    - [while] loops take fuel; [None] means that the fuel ran out. *)

From stdpp Require Import base numbers list strings gmap.
From Stdlib Require Import QArith Qcanon Sorted Permutation.

Close Scope Qc_scope.
Close Scope Q_scope.
Open Scope nat_scope.

(** ** Numbers *)

Definition float_of_int (n : Z) : Qc := Qc_of_Z n.

(** [x > y] on floats. *)
Definition float_gtb (x y : Qc) : bool :=
  match (x ?= y)%Qc with Gt => true | _ => false end.

(** [x <= y] on floats, the order [list.sort] uses on keys. *)
Definition float_leb (x y : Qc) : bool :=
  match (x ?= y)%Qc with Gt => false | _ => true end.

(** ** Strings *)

(** [sub in s]: [sub] occurs in [s] as a contiguous run of characters. *)
Fixpoint str_contains (sub s : string) : bool :=
  String.prefix sub s ||
  match s with
  | EmptyString => false
  | String _ s' => str_contains sub s'
  end.

(** The continuation bytes of UTF-8, [10xxxxxx]. *)
Definition is_continuation (a : Ascii.ascii) : bool :=
  match a with
  | Ascii.Ascii _ _ _ _ _ _ b6 b7 => b7 && negb b6
  end.

Definition starts_with_continuation (s : string) : bool :=
  match s with
  | EmptyString => false
  | String a _ => is_continuation a
  end.

(** Iterating a [str] yields its characters as strings of length one: a new
    character starts at every byte that is no continuation byte. *)
Fixpoint str_iter (s : string) : list string :=
  match s with
  | EmptyString => []
  | String a s' =>
      match str_iter s' with
      | [] => [String a EmptyString]
      | w :: ws =>
          if starts_with_continuation s' then String a w :: ws
          else String a EmptyString :: w :: ws
      end
  end.

(** Truthiness of a [str] or [None] value. *)
Definition truthy (cursor : option string) : bool :=
  match cursor with
  | None => false
  | Some s => negb (String.eqb s EmptyString)
  end.

(** ** Exceptions *)

Inductive exn : Type :=
  | TimeoutException   (* httpx.TimeoutException *)
  | HTTPError          (* any other failure of the request *)
  | KeyError           (* a field of the response is missing or malformed *)
  | IndexError         (* [l[-1]] on an empty list *)
  | TypeError          (* subscripting [None] *)
  | RetryError.        (* tenacity: the attempts are exhausted *)

Inductive res (A : Type) : Type :=
  | Ok (a : A)
  | Raise (e : exn).
Arguments Ok {A} a.
Arguments Raise {A} e.

Global Instance exn_eq_dec : EqDecision exn.
Proof. solve_decision. Defined.
Global Instance res_eq_dec {A} `{EqDecision A} : EqDecision (res A).
Proof. solve_decision. Defined.

(** [l[-1]] *)
Definition last_item {A} (l : list A) : res A :=
  match last l with
  | Some x => Ok x
  | None => Raise IndexError
  end.

(** ** Data model *)

(** Instants of time, in seconds. *)
Definition Time : Type := Qc.

Definition calculate_time_difference (start_time current_time : Time) : Qc :=
  (current_time - start_time)%Qc.

(** The raw entries of a comment page. *)
Record Commenter : Type := mkCommenter {
  commenter_id : string;
  commenter_login : string;
  commenter_displayName : string
}.

Record Node : Type := mkNode {
  node_id : string;
  commenter : option Commenter;      (* [None] is JSON [null] *)
  fragments : list string;           (* the [text] of each fragment *)
  createdAt : Time;
  contentOffsetSeconds : Z
}.

Record Edge : Type := mkEdge {
  edge_cursor : string;
  node : Node
}.

Module SimpleChat.
Record t : Type := mk {
  id : string;
  cursor : string;
  login : string;
  displayName : string;
  user_id : string;
  text : string;
  offset : Qc
}.

Global Instance eq_dec : EqDecision t.
Proof. solve_decision. Defined.

(** ["".join(...)] *)
Definition join (l : list string) : string :=
  foldr String.append EmptyString l.

(** Subscripting a [null] commenter raises. *)
Definition from_raw_data (raw_data : Edge) (start_time : Time) : res t :=
  match commenter (node raw_data) with
  | None => Raise TypeError
  | Some c =>
      Ok {| id := node_id (node raw_data);
            cursor := edge_cursor raw_data;
            login := commenter_login c;
            displayName := commenter_displayName c;
            user_id := commenter_id c;
            text := join (fragments (node raw_data));
            offset := calculate_time_difference start_time
                        (createdAt (node raw_data)) |}
  end.
End SimpleChat.

Module ExportChat.
Record t : Type := mk {
  displayName : string;
  text : string;
  offset : Qc
}.

Global Instance eq_dec : EqDecision t.
Proof. solve_decision. Defined.

Definition from_simple_chat (raw_data : SimpleChat.t) (start_seconds : Z) : t :=
  {| displayName := SimpleChat.displayName raw_data;
     text := SimpleChat.text raw_data;
     offset := (SimpleChat.offset raw_data - float_of_int start_seconds)%Qc |}.
End ExportChat.

(** ** Requests and responses *)

Inductive Request : Type :=
  | VideoCommentByCursorReq (video_id : Z) (cursor : string)
  | VideoCommentByOffsetReq (video_id : Z) (offset : Z)
  | ChannelVideoCoreReq (video_id : Z)
  | VideoMetadataReq (channel_login : string) (video_id : Z).

(** The decoded body of a reply, by the shape the code reads from it. *)
Inductive Response : Type :=
  | Malformed
  | Comments (edges : list Edge) (hasNextPage : bool)
  | Owner (owner_login : string)
  | Metadata (video_createdAt : Time) (lengthSeconds : Z).

Inductive Outcome : Type :=
  | Timeout
  | Failure
  | Reply (r : Response).

(** The endpoint: the outcome of the [n]-th request sent by the process. *)
Definition Net : Type := nat → Request → Outcome.

(** ** The state and exception monad of the network code *)

Definition M (A : Type) : Type := nat → res A * nat.

Definition ret {A} (a : A) : M A := λ n, (Ok a, n).
Definition raise {A} (e : exn) : M A := λ n, (Raise e, n).
Definition bind {A B} (m : M A) (k : A → M B) : M B :=
  λ n, match m n with
       | (Ok a, n') => k a n'
       | (Raise e, n') => (Raise e, n')
       end.
Definition lift {A} (r : res A) : M A := λ n, (r, n).

Declare Scope M_scope.
Delimit Scope M_scope with M.
Notation "x <- m ;; k" := (bind m (λ x, k))
  (at level 100, m at next level, right associativity) : M_scope.

Fixpoint mapM_res {A B} (f : A → res B) (l : list A) : res (list B) :=
  match l with
  | [] => Ok []
  | x :: l' =>
      match f x with
      | Raise e => Raise e
      | Ok y =>
          match mapM_res f l' with
          | Raise e => Raise e
          | Ok ys => Ok (y :: ys)
          end
      end
  end.

(** The page a fetcher returns: the dict with keys [next], [chats],
    [part_time]. *)
Record PageResult : Type := mkPage {
  next : bool;
  chats : list SimpleChat.t;
  part_time : Z
}.

(** [resp[0]["data"]["video"]["comments"]] *)
Definition comments_of (resp : Response) : res (list Edge * bool) :=
  match resp with
  | Comments edges hasNextPage => Ok (edges, hasNextPage)
  | _ => Raise KeyError
  end.

(** [@retry(stop=stop_after_attempt(5),
            retry=retry_if_exception_type(httpx.TimeoutException))] *)
Definition stop_after_attempt : nat := 5.

Fixpoint retry {A} (attempts : nat) (f : M A) : M A :=
  λ n, match attempts with
       | 0 => (Raise RetryError, n)
       | S attempts' =>
           match f n with
           | (Raise TimeoutException, n') => retry attempts' f n'
           | r => r
           end
       end.

(** ** The page fetchers and the retrieval loops *)

Section Retrieval.
Variable net : Net.

Local Open Scope M_scope.

(** [(await session.post(endpoint, json=req)).json()] *)
Definition post (req : Request) : M Response :=
  λ n, match net n req with
       | Timeout => (Raise TimeoutException, S n)
       | Failure => (Raise HTTPError, S n)
       | Reply r => (Ok r, S n)
       end.

(** The body of [get_chat_by_offset], one attempt. *)
Definition get_chat_by_offset_once
    (video_id : Z) (offset : Z) (start_time : Time) : M PageResult :=
  resp <- post (VideoCommentByOffsetReq video_id offset) ;;
  page <- lift (comments_of resp) ;;
  let edges := page.1 in
  let chats := List.filter (λ i, bool_decide (is_Some (commenter (node i)))) edges in
  let next_page := page.2 in
  last_edge <- lift (last_item edges) ;;
  let part_time := contentOffsetSeconds (node last_edge) in
  records <- lift (mapM_res (λ raw_data, SimpleChat.from_raw_data raw_data start_time) chats) ;;
  ret {| next := next_page; chats := records; part_time := part_time |}.

Definition get_chat_by_offset
    (video_id : Z) (offset : Z) (start_time : Time) : M PageResult :=
  retry stop_after_attempt (get_chat_by_offset_once video_id offset start_time).

(** The body of [get_chat_by_cursor], one attempt. *)
Definition get_chat_by_cursor_once
    (video_id : Z) (cursor : string) (start_time : Time) : M PageResult :=
  resp <- post (VideoCommentByCursorReq video_id cursor) ;;
  page <- lift (comments_of resp) ;;
  let edges := page.1 in
  let chats := List.filter (λ i, bool_decide (is_Some (commenter (node i)))) edges in
  let next_page := page.2 in
  last_edge <- lift (last_item edges) ;;
  let part_time := contentOffsetSeconds (node last_edge) in
  records <- lift (mapM_res (λ raw_data, SimpleChat.from_raw_data raw_data start_time) chats) ;;
  ret {| next := next_page; chats := records; part_time := part_time |}.

Definition get_chat_by_cursor
    (video_id : Z) (cursor : string) (start_time : Time) : M PageResult :=
  retry stop_after_attempt (get_chat_by_cursor_once video_id cursor start_time).

(** [resp[0]["data"]["video"]["owner"]["login"]] *)
Definition owner_of (resp : Response) : res string :=
  match resp with
  | Owner l => Ok l
  | _ => Raise KeyError
  end.

Definition get_video_start_time (video_id : Z) : M Time :=
  channel_resp <- post (ChannelVideoCoreReq video_id) ;;
  channel_login <- lift (owner_of channel_resp) ;;
  metadata <- post (VideoMetadataReq channel_login video_id) ;;
  lift (match metadata with
        | Metadata t _ => Ok t
        | _ => Raise KeyError
        end).

Definition get_video_length (video_id : Z) : M Z :=
  channel_resp <- post (ChannelVideoCoreReq video_id) ;;
  channel_login <- lift (owner_of channel_resp) ;;
  metadata <- post (VideoMetadataReq channel_login video_id) ;;
  lift (match metadata with
        | Metadata _ len => Ok len
        | _ => Raise KeyError
        end).

(** The first request of a loop is by offset, the later ones by the
    cursor, unless the cursor is falsy. *)
Definition fetch (video_id : Z) (offset : Z) (start_time : Time)
    (cursor : option string) : M PageResult :=
  match cursor with
  | Some c =>
      if truthy cursor then get_chat_by_cursor video_id c start_time
      else get_chat_by_offset video_id offset start_time
  | None => get_chat_by_offset video_id offset start_time
  end.

(** The [while True] loop of [get_all_chat]. *)
Fixpoint get_all_chat_loop (fuel : nat) (video_id : Z) (start_time : Time)
    (cursor : option string) (result : list SimpleChat.t)
    : nat → option (res (list SimpleChat.t) * nat) :=
  λ n, match fuel with
       | 0 => None
       | S fuel' =>
           match fetch video_id 0 start_time cursor n with
           | (Raise e, n') => Some (Raise e, n')
           | (Ok resp, n') =>
               let result := result ++ chats resp in
               if next resp then
                 match last_item (chats resp) with
                 | Raise e => Some (Raise e, n')
                 | Ok c =>
                     get_all_chat_loop fuel' video_id start_time
                       (Some (SimpleChat.cursor c)) result n'
                 end
               else Some (Ok result, n')
           end
       end.

Definition get_all_chat (fuel : nat) (video_id : Z)
    : nat → option (res (list SimpleChat.t) * nat) :=
  λ n, match get_video_start_time video_id n with
       | (Raise e, n') => Some (Raise e, n')
       | (Ok start_time, n') =>
           match get_video_length video_id n' with
           | (Raise e, n'') => Some (Raise e, n'')
           | (Ok video_length, n'') =>
               get_all_chat_loop fuel video_id start_time None [] n''
           end
       end.

(** The [for chat in resp["chats"]] loop of [get_part_chat]; the boolean is
    the variable [stop] after the loop, given that it was [True] before. *)
Fixpoint consume (stop_seconds : Z) (page : list SimpleChat.t)
    (result : list SimpleChat.t) : list SimpleChat.t * bool :=
  match page with
  | [] => (result, true)
  | chat :: page' =>
      if float_gtb (SimpleChat.offset chat) (float_of_int stop_seconds)
      then (result, false)
      else consume stop_seconds page' (result ++ [chat])
  end.

(** The [while stop] loop of [get_part_chat]. *)
Fixpoint get_part_chat_loop (fuel : nat) (video_id : Z)
    (start_seconds stop_seconds : Z) (start_time : Time)
    (cursor : option string) (result : list SimpleChat.t)
    : nat → option (res (list SimpleChat.t) * nat) :=
  λ n, match fuel with
       | 0 => None
       | S fuel' =>
           match fetch video_id start_seconds start_time cursor n with
           | (Raise e, n') => Some (Raise e, n')
           | (Ok resp, n') =>
               let (result, stop) := consume stop_seconds (chats resp) result in
               if next resp then
                 match last_item (chats resp) with
                 | Raise e => Some (Raise e, n')
                 | Ok c =>
                     if stop then
                       get_part_chat_loop fuel' video_id start_seconds
                         stop_seconds start_time
                         (Some (SimpleChat.cursor c)) result n'
                     else Some (Ok result, n')
                 end
               else Some (Ok result, n')
           end
       end.

Definition get_part_chat (fuel : nat) (video_id : Z)
    (start_seconds stop_seconds : Z)
    : nat → option (res (list SimpleChat.t) * nat) :=
  λ n, match get_video_start_time video_id n with
       | (Raise e, n') => Some (Raise e, n')
       | (Ok start_time, n') =>
           get_part_chat_loop fuel video_id start_seconds stop_seconds
             start_time None [] n'
       end.
End Retrieval.

(** ** Keyword search *)

Definition matches (chat : SimpleChat.t) (keyword : string) : bool :=
  str_contains keyword (SimpleChat.displayName chat) ||
  str_contains keyword (SimpleChat.text chat).

Definition search_keywords (chats : list SimpleChat.t) (keywords : list string)
    (start_seconds : Z) : list SimpleChat.t :=
  fold_left
    (λ results chat,
       fold_left
         (λ results keyword,
            if matches chat keyword then results ++ [chat] else results)
         keywords results)
    chats [].

(** ** Export *)

(** The JSON documents the exporter writes. *)
Inductive jvalue : Type :=
  | JString (s : string)
  | JNumber (x : Qc).

(** An object, its members in order, and an array of objects. *)
Definition jobject : Type := list (string * jvalue).
Definition json : Type := list jobject.

(** [ExportChat.model_dump()], and the round trip through
    [tuple(d.items())] and [dict(t)], which keeps the three members. *)
Definition model_dump (c : ExportChat.t) : jobject :=
  [ ("displayName"%string, JString (ExportChat.displayName c));
    ("text"%string, JString (ExportChat.text c));
    ("offset"%string, JNumber (ExportChat.offset c)) ].

(** A set comprehension followed by iteration over the set.  The order in
    which a set yields its elements follows from the hashes of the elements
    and is fixed for one interpreter process, without being specified: it is
    a parameter, any function that lists the distinct elements of the
    sequence the set was built from. *)
Class PySet : Type := {
  set_iter : list ExportChat.t → list ExportChat.t;
  set_iter_NoDup : ∀ l, NoDup (set_iter l);
  set_iter_elem : ∀ l x, x ∈ set_iter l ↔ x ∈ l
}.

(** [list.sort(key=lambda x: x["offset"])]: the stable sort by the key,
    computed by insertion. *)
Fixpoint insert_by_offset (x : ExportChat.t) (l : list ExportChat.t)
    : list ExportChat.t :=
  match l with
  | [] => [x]
  | y :: l' =>
      if float_leb (ExportChat.offset x) (ExportChat.offset y)
      then x :: l
      else y :: insert_by_offset x l'
  end.

Definition sort_by_offset (l : list ExportChat.t) : list ExportChat.t :=
  foldr insert_by_offset [] l.

(** [f"export_{uuid.uuid4().hex[:6]}.json"], for the drawn [hex]. *)
Definition export_name (hex : string) : string :=
  ("export_" ++ String.substring 0 6 hex ++ ".json")%string.

Section Exporter.
Context `{PySet}.

(** The list [final_chats] when it is dumped. *)
Definition final_chats (chats : list SimpleChat.t) (start_seconds : Z)
    : list ExportChat.t :=
  let export_chats :=
    map (λ chat, ExportChat.from_simple_chat chat start_seconds) chats in
  let final_chats := set_iter export_chats in
  sort_by_offset final_chats.

(** The files of the working directory: name to document.  [export]
    opens a file for writing under the drawn name and dumps the list. *)
Definition export (chats : list SimpleChat.t) (start_seconds : Z)
    (hex : string) (fs : gmap string json) : gmap string json :=
  <[export_name hex := map model_dump (final_chats chats start_seconds)]> fs.

(** [main], after the three calls of [get_sec] on its time arguments;
    [keywords] is the string of the command line, iterated as such. *)
Definition main (net : Net) (fuel : nat) (video_id : Z)
    (start_seconds end_seconds : Z) (keywords : string)
    (hex : string) (fs : gmap string json)
    : nat → option (res (gmap string json) * nat) :=
  λ n, match get_part_chat net fuel video_id start_seconds end_seconds n with
       | None => None
       | Some (Raise e, n') => Some (Raise e, n')
       | Some (Ok chats, n') =>
           let matched_chats :=
             search_keywords chats (str_iter keywords) start_seconds in
           match matched_chats with
           | [] => Some (Ok fs, n')
           | _ :: _ =>
               Some (Ok (export matched_chats start_seconds hex fs), n')
           end
       end.
End Exporter.

(** Sets that yield their elements in the order of first insertion. *)
Program Definition first_inserted : PySet := {|
  set_iter := remove_dups
|}.
Next Obligation. intros; apply NoDup_remove_dups. Qed.
Next Obligation. intros; apply elem_of_remove_dups. Qed.

(** Sets that yield their elements in the opposite order. *)
Program Definition last_inserted : PySet := {|
  set_iter := λ l, reverse (remove_dups l)
|}.
Next Obligation. intros; rewrite reverse_Permutation; apply NoDup_remove_dups. Qed.
Next Obligation. intros; rewrite elem_of_reverse; apply elem_of_remove_dups. Qed.

(** ** Example feeds *)

Definition commenter_a : Commenter :=
  {| commenter_id := "7"; commenter_login := "ann"; commenter_displayName := "Ann" |}.

(** An entry written by [commenter_a] at second [t] of the video. *)
Definition entry (cur : string) (txt : string) (t : Z) : Edge :=
  {| edge_cursor := cur;
     node := {| node_id := cur; commenter := Some commenter_a;
                fragments := [txt]; createdAt := float_of_int t;
                contentOffsetSeconds := t |} |}.

(** The record of [entry cur txt t] for a video created at instant 0. *)
Definition record (cur : string) (txt : string) (t : Z) : SimpleChat.t :=
  {| SimpleChat.id := cur; SimpleChat.cursor := cur;
     SimpleChat.login := "ann"; SimpleChat.displayName := "Ann";
     SimpleChat.user_id := "7"; SimpleChat.text := txt;
     SimpleChat.offset := float_of_int t |}.

(** An entry whose commenter is [null]. *)
Definition null_entry (cur : string) (t : Z) : Edge :=
  {| edge_cursor := cur;
     node := {| node_id := cur; commenter := None;
                fragments := ["gone"%string]; createdAt := float_of_int t;
                contentOffsetSeconds := t |} |}.

(** A feed of a video created at instant 0 that answers every request for
    comments with the same page. *)
Definition constant_feed (edges : list Edge) (hasNextPage : bool) : Net :=
  λ _ req,
    match req with
    | ChannelVideoCoreReq _ => Reply (Owner "chan")
    | VideoMetadataReq _ _ => Reply (Metadata (float_of_int 0) 3600)
    | _ => Reply (Comments edges hasNextPage)
    end.

(** The same, but the first [k] requests for comments time out; the two
    requests for the metadata come first. *)
Definition slow_feed (k : nat) (edges : list Edge) (hasNextPage : bool) : Net :=
  λ n req,
    match req with
    | ChannelVideoCoreReq _ => Reply (Owner "chan")
    | VideoMetadataReq _ _ => Reply (Metadata (float_of_int 0) 3600)
    | _ => if bool_decide (n < k) then Timeout
           else Reply (Comments edges hasNextPage)
    end.

(** ** Vocabulary of the properties *)

(** What one attempt makes of the decoded reply. *)
Definition page_of_response (resp : Response) (start_time : Time) : res PageResult :=
  match comments_of resp with
  | Raise e => Raise e
  | Ok page =>
      match last_item page.1 with
      | Raise e => Raise e
      | Ok last_edge =>
          match mapM_res (λ raw_data, SimpleChat.from_raw_data raw_data start_time)
                  (List.filter (λ i, bool_decide (is_Some (commenter (node i)))) page.1) with
          | Raise e => Raise e
          | Ok records =>
              Ok {| next := page.2; chats := records;
                    part_time := contentOffsetSeconds (node last_edge) |}
          end
      end
  end.

(** What one attempt makes of the outcome of its request. *)
Definition page_of_outcome (o : Outcome) (start_time : Time) : res PageResult :=
  match o with
  | Timeout => Raise TimeoutException
  | Failure => Raise HTTPError
  | Reply r => page_of_response r start_time
  end.

(** The request [fetch] sends. *)
Definition fetch_request (video_id offset : Z) (cursor : option string) : Request :=
  match cursor with
  | Some c => if truthy cursor then VideoCommentByCursorReq video_id c
              else VideoCommentByOffsetReq video_id offset
  | None => VideoCommentByOffsetReq video_id offset
  end.

(** The entries a fetcher keeps. *)
Definition kept (edges : list Edge) : list Edge :=
  List.filter (λ i, bool_decide (is_Some (commenter (node i)))) edges.

(** One attempt of the fetcher the loops call. *)
Definition fetch_once (net : Net) (req : Request) (start_time : Time) : M PageResult :=
  λ m, (page_of_outcome (net m req) start_time, S m).

(** The policy of a fetcher [get] whose attempts send [req]: five timeouts in
    a row exhaust the attempts; fewer timeouts, followed by an attempt whose
    request does not time out, give the result of that attempt, whatever it
    is, and no request is sent after it. *)
Definition retry_policy (net : Net) (req : Request) (start_time : Time)
    (get : M PageResult) (n : nat) : Prop :=
  ((∀ i, i < 5 → net (n + i) req = Timeout) →
   get n = (Raise RetryError, n + 5)) ∧
  (∀ k, k < 5 →
     (∀ i, i < k → net (n + i) req = Timeout) →
     net (n + k) req ≠ Timeout →
     get n = (page_of_outcome (net (n + k) req) start_time, S (n + k))).



(** The encoding of one character: a byte that is no continuation byte,
    then continuation bytes only. *)
Definition character (w : string) : Prop :=
  ∃ a rest, w = String a rest ∧ is_continuation a = false ∧
            forallb is_continuation (String.list_ascii_of_string rest) = true.

(** The order of the exported list. *)
Definition offset_le (a b : ExportChat.t) : Prop :=
  (ExportChat.offset a ≤ ExportChat.offset b)%Qc.

Global Instance PageResult_eq_dec : EqDecision PageResult.
Proof. solve_decision. Defined.

(** Equations between closed terms, decided by evaluation. *)
Ltac by_evaluation := apply (bool_decide_unpack _); vm_compute; exact I.

(** ** The command line *)

(** [s.split(sep)] for a separator of one character: the runs of [s]
    between the occurrences of [sep], of which there is always one more than
    there are occurrences. *)
Fixpoint split_on (sep : Ascii.ascii) (s : string) : list string :=
  match s with
  | EmptyString => [EmptyString]
  | String a s' =>
      if Ascii.eqb a sep then EmptyString :: split_on sep s'
      else match split_on sep s' with
           | [] => [String a EmptyString]
           | w :: ws => String a w :: ws
           end
  end.

(** The number of occurrences of a character in a string. *)
Fixpoint occurrences (sep : Ascii.ascii) (s : string) : nat :=
  match s with
  | EmptyString => 0
  | String a s' => (if Ascii.eqb a sep then 1 else 0) + occurrences sep s'
  end.

(** [sep.join(fields)] for a separator of one character. *)
Fixpoint join_with (sep : Ascii.ascii) (fields : list string) : string :=
  match fields with
  | [] => EmptyString
  | w :: ws =>
      match ws with
      | [] => w
      | _ :: _ => (w ++ String sep (join_with sep ws))%string
      end
  end.

(** The character [":"]. *)
Definition colon : Ascii.ascii := Ascii.ascii_of_nat 58.

Section CommandLine.
(** The builtin [int] on a [str]; [None] when it raises [ValueError]. *)
Variable int : string → option Z.

(** [get_sec]; [None] when it raises [ValueError], from the unpacking of
    the fields into [h, m, s] or from [int]. *)
Definition get_sec (time_str : string) : option Z :=
  match split_on colon time_str with
  | [h; m; s] =>
      h' ← int h; m' ← int m; s' ← int s;
      Some (h' * 3600 + m' * 60 + s')%Z
  | _ => None
  end.

End CommandLine.

(** The value of a string of decimal digits, as [int] reads it; the other
    strings are not read. *)
Fixpoint digits_value (acc : Z) (s : string) : option Z :=
  match s with
  | EmptyString => Some acc
  | String a s' =>
      let d := Z.of_nat (Ascii.nat_of_ascii a) in
      if bool_decide (48 ≤ d ≤ 57)%Z
      then digits_value (10 * acc + (d - 48)) s'
      else None
  end.

Definition int_of_digits (s : string) : option Z :=
  match s with
  | EmptyString => None
  | _ => digits_value 0 s
  end.

(** ** Traces of the retrieval loops *)

(** The pages a loop is served, one after the other: the first for
    [cursor] from the [n]-th request on, each later one for the cursor of
    the last record of the page before it, which reports a next page; the
    last one is received when [n_end] requests have been sent. *)
Fixpoint served (net : Net) (video_id offset : Z) (start_time : Time)
    (n : nat) (cursor : option string) (pages : list PageResult)
    (n_end : nat) : Prop :=
  match pages with
  | [] => False
  | page :: pages' =>
      match pages' with
      | [] => fetch net video_id offset start_time cursor n = (Ok page, n_end)
      | _ :: _ =>
          ∃ n' c,
            fetch net video_id offset start_time cursor n = (Ok page, n') ∧
            next page = true ∧
            last (chats page) = Some c ∧
            served net video_id offset start_time n'
              (Some (SimpleChat.cursor c)) pages' n_end
      end
  end.

(** The record is within the bound. *)
Definition within (stop_seconds : Z) (c : SimpleChat.t) : Prop :=
  (SimpleChat.offset c ≤ float_of_int stop_seconds)%Qc.

Global Instance jvalue_eq_dec : EqDecision jvalue.
Proof. solve_decision. Defined.

Global Instance within_dec stop_seconds c : Decision (within stop_seconds c).
Proof. unfold within. apply _. Defined.

(** A feed that serves the given pages to the successive requests for
    comments, and the last of them to the requests after these; the two
    requests for the metadata come first. *)
Definition paged_feed (pages : list (list Edge * bool)) : Net :=
  λ n req,
    match req with
    | ChannelVideoCoreReq _ => Reply (Owner "chan")
    | VideoMetadataReq _ _ => Reply (Metadata (float_of_int 0) 3600)
    | _ =>
        match pages !! (n - 2), last pages with
        | Some (edges, more), _ => Reply (Comments edges more)
        | None, Some (edges, more) => Reply (Comments edges more)
        | None, None => Reply Malformed
        end
    end.

(** * Properties *)

(** ** The fetchers *)

Lemma get_chat_by_offset_once_eq net video_id offset start_time n :
  get_chat_by_offset_once net video_id offset start_time n =
  (page_of_outcome (net n (VideoCommentByOffsetReq video_id offset)) start_time, S n).
Proof.
  unfold get_chat_by_offset_once, bind, post, lift, ret, page_of_outcome, page_of_response.
  destruct (net n _) as [| |r]; try reflexivity.
  destruct (comments_of r) as [page|]; try reflexivity.
  destruct (last_item page.1); try reflexivity.
  destruct (mapM_res _ _); reflexivity.
Qed.

Lemma get_chat_by_cursor_once_eq net video_id cursor start_time n :
  get_chat_by_cursor_once net video_id cursor start_time n =
  (page_of_outcome (net n (VideoCommentByCursorReq video_id cursor)) start_time, S n).
Proof.
  unfold get_chat_by_cursor_once, bind, post, lift, ret, page_of_outcome, page_of_response.
  destruct (net n _) as [| |r]; try reflexivity.
  destruct (comments_of r) as [page|]; try reflexivity.
  destruct (last_item page.1); try reflexivity.
  destruct (mapM_res _ _); reflexivity.
Qed.

(** Converting the kept entries does not raise, and yields one record for
    each of them, in order. *)
Lemma mapM_from_raw_data_kept edges start_time :
  ∃ records,
    mapM_res (λ raw_data, SimpleChat.from_raw_data raw_data start_time) (kept edges)
      = Ok records ∧
    Forall2 (λ raw_data r, SimpleChat.from_raw_data raw_data start_time = Ok r)
      (kept edges) records.
Proof.
  induction edges as [|e edges (records & Hm & Hf)]; simpl.
  - exists []. split; [done | constructor].
  - unfold kept in *; simpl. case_bool_decide as Hc; [|by exists records].
    destruct Hc as [c Hc]. simpl. rewrite Hm.
    unfold SimpleChat.from_raw_data at 1. rewrite Hc.
    eexists; split; [done|]. constructor; [|done].
    unfold SimpleChat.from_raw_data. by rewrite Hc.
Qed.

(** Only a request that times out makes an attempt raise [TimeoutException]. *)
Lemma page_of_outcome_timeout o start_time :
  page_of_outcome o start_time = Raise TimeoutException → o = Timeout.
Proof.
  destruct o as [| |r]; simpl; try done.
  unfold page_of_response.
  destruct r; simpl; try done.
  destruct (mapM_from_raw_data_kept edges start_time) as (records & Hm & _).
  unfold kept in Hm. rewrite Hm.
  unfold last_item. destruct (last edges); done.
Qed.

(** *** The retry policy *)

(** Attempts that time out are skipped, one request each. *)
Lemma retry_skip {A} (f : M A) k j n :
  (∀ i, i < k → f (n + i) = (Raise TimeoutException, S (n + i))) →
  retry (k + j) f n = retry j f (n + k).
Proof.
  revert n. induction k as [|k IH]; intros n Hk; simpl.
  - by rewrite Nat.add_0_r.
  - rewrite <- (Nat.add_0_r n) at 1. rewrite (Hk 0) by lia.
    rewrite Nat.add_0_r, IH, Nat.add_succ_comm; [done|].
    intros i Hi. rewrite Nat.add_succ_comm. apply Hk. lia.
Qed.

(** An attempt that does not time out ends the call with its own result. *)
Lemma retry_settle {A} (f : M A) j n r n' :
  f n = (r, n') → r ≠ Raise TimeoutException → retry (S j) f n = (r, n').
Proof.
  intros Hf Hr. simpl. rewrite Hf.
  destruct r as [a|[]]; done.
Qed.

Lemma retry_policy_intro net req start_time (once : M PageResult) n :
  (∀ m, once m = (page_of_outcome (net m req) start_time, S m)) →
  retry_policy net req start_time (retry stop_after_attempt once) n.
Proof.
  intros Honce. split.
  - intros Ht. change stop_after_attempt with (5 + 0).
    rewrite retry_skip; [done|].
    intros i Hi. by rewrite Honce, Ht.
  - intros k Hk Ht Hne.
    replace stop_after_attempt with (k + S (4 - k)) by (unfold stop_after_attempt; lia).
    rewrite retry_skip by (intros i Hi; by rewrite Honce, Ht).
    apply retry_settle; [apply Honce|].
    intros Hr. by apply page_of_outcome_timeout in Hr.
Qed.

(** C4.  A call of [get_chat_by_offset] or [get_chat_by_cursor] retries the
    attempts whose request times out, and only those: after five timeouts in
    a row it raises [RetryError], having sent five requests; after [k < 5]
    timeouts, an attempt whose request does not time out ends the call with
    the result of that attempt, be it a page or an exception, and no further
    request is sent.  A failed request that is no timeout raises
    [HTTPError], a malformed reply [KeyError], an empty list of entries
    [IndexError]. *)
Theorem fetch_retries_timeouts_only net video_id offset cursor start_time n :
  retry_policy net (VideoCommentByOffsetReq video_id offset) start_time
    (get_chat_by_offset net video_id offset start_time) n ∧
  retry_policy net (VideoCommentByCursorReq video_id cursor) start_time
    (get_chat_by_cursor net video_id cursor start_time) n ∧
  page_of_outcome Failure start_time = Raise HTTPError ∧
  page_of_outcome (Reply Malformed) start_time = Raise KeyError ∧
  (∀ b, page_of_outcome (Reply (Comments [] b)) start_time = Raise IndexError).
Proof.
  split; [|split].
  - apply retry_policy_intro. intros m. apply get_chat_by_offset_once_eq.
  - apply retry_policy_intro. intros m. apply get_chat_by_cursor_once_eq.
  - done.
Qed.

Lemma fetch_retries_timeouts_only_witness :
  get_chat_by_offset (slow_feed 5 [entry "a" "hi" 3] false) 1 0 (float_of_int 0) 0
    = (Raise RetryError, 5) ∧
  get_chat_by_cursor (slow_feed 2 [] false) 1 "a" (float_of_int 0) 0
    = (Raise IndexError, 3).
Proof.
  pose proof (fetch_retries_timeouts_only (slow_feed 5 [entry "a" "hi" 3] false)
                1 0 "a" (float_of_int 0) 0) as (H1 & _).
  pose proof (fetch_retries_timeouts_only (slow_feed 2 [] false)
                1 0 "a" (float_of_int 0) 0) as (_ & H2 & _).
  split.
  - apply H1. intros i Hi. simpl. by rewrite bool_decide_eq_true_2 by lia.
  - rewrite (proj2 H2 2); [done | lia | |].
    + intros i Hi. simpl. by rewrite bool_decide_eq_true_2 by lia.
    + simpl. done.
Defined.

(** *** The page of a well-formed reply *)

Lemma page_of_response_comments edges hasNextPage start_time :
  edges ≠ [] →
  ∃ last_edge records,
    last edges = Some last_edge ∧
    Forall2 (λ raw_data r, SimpleChat.from_raw_data raw_data start_time = Ok r)
      (kept edges) records ∧
    page_of_response (Comments edges hasNextPage) start_time =
      Ok {| next := hasNextPage; chats := records;
            part_time := contentOffsetSeconds (node last_edge) |}.
Proof.
  intros Hne.
  destruct (last edges) as [last_edge|] eqn:Hl; [|by apply last_None in Hl].
  destruct (mapM_from_raw_data_kept edges start_time) as (records & Hm & Hf).
  exists last_edge, records. split; [done|]. split; [done|].
  unfold page_of_response, last_item. simpl. rewrite Hl.
  unfold kept in Hm. by rewrite Hm.
Qed.

(** A well-formed reply is turned into a page by the first attempt. *)
Lemma get_chat_by_offset_reply net video_id offset start_time n r :
  net n (VideoCommentByOffsetReq video_id offset) = Reply r →
  get_chat_by_offset net video_id offset start_time n =
    (page_of_response r start_time, S n).
Proof.
  intros Hr.
  destruct (retry_policy_intro net (VideoCommentByOffsetReq video_id offset)
              start_time (get_chat_by_offset_once net video_id offset start_time) n
              ltac:(intros; apply get_chat_by_offset_once_eq)) as [_ H].
  specialize (H 0). rewrite Nat.add_0_r, Hr in H. apply H; [lia| intros; lia | done].
Qed.

Lemma get_chat_by_cursor_reply net video_id cursor start_time n r :
  net n (VideoCommentByCursorReq video_id cursor) = Reply r →
  get_chat_by_cursor net video_id cursor start_time n =
    (page_of_response r start_time, S n).
Proof.
  intros Hr.
  destruct (retry_policy_intro net (VideoCommentByCursorReq video_id cursor)
              start_time (get_chat_by_cursor_once net video_id cursor start_time) n
              ltac:(intros; apply get_chat_by_cursor_once_eq)) as [_ H].
  specialize (H 0). rewrite Nat.add_0_r, Hr in H. apply H; [lia| intros; lia | done].
Qed.

(** C3.  When the reply to the request of either fetcher carries a
    non-empty list of entries, the fetcher returns a page whose records are,
    in order, the conversions of the entries whose commenter is not null:
    one record for each such entry and none for an entry whose commenter is
    null. *)
Theorem null_commenter_skipped net video_id offset cursor start_time n edges hasNextPage :
  edges ≠ [] →
  (net n (VideoCommentByOffsetReq video_id offset) = Reply (Comments edges hasNextPage) →
   ∃ page,
     get_chat_by_offset net video_id offset start_time n = (Ok page, S n) ∧
     Forall2 (λ raw_data r,
                commenter (node raw_data) ≠ None ∧
                SimpleChat.from_raw_data raw_data start_time = Ok r)
       (List.filter (λ i, bool_decide (is_Some (commenter (node i)))) edges)
       (chats page)) ∧
  (net n (VideoCommentByCursorReq video_id cursor) = Reply (Comments edges hasNextPage) →
   ∃ page,
     get_chat_by_cursor net video_id cursor start_time n = (Ok page, S n) ∧
     Forall2 (λ raw_data r,
                commenter (node raw_data) ≠ None ∧
                SimpleChat.from_raw_data raw_data start_time = Ok r)
       (List.filter (λ i, bool_decide (is_Some (commenter (node i)))) edges)
       (chats page)).
Proof.
  intros Hne.
  destruct (page_of_response_comments edges hasNextPage start_time Hne)
    as (last_edge & records & _ & Hf & Hp).
  assert (Hf' : Forall2 (λ raw_data r,
                commenter (node raw_data) ≠ None ∧
                SimpleChat.from_raw_data raw_data start_time = Ok r)
                (kept edges) records).
  { eapply Forall2_impl; [exact Hf|]. intros raw r Hr. split; [|done].
    unfold SimpleChat.from_raw_data in Hr. by destruct (commenter (node raw)). }
  split; intros Hr.
  - eexists. rewrite (get_chat_by_offset_reply _ _ _ _ _ _ Hr), Hp. split; done.
  - eexists. rewrite (get_chat_by_cursor_reply _ _ _ _ _ _ Hr), Hp. split; done.
Qed.

Lemma null_commenter_skipped_witness :
  ∃ page,
    get_chat_by_offset
      (constant_feed [null_entry "a" 1; entry "b" "hi" 2; null_entry "c" 3] true)
      1 0 (float_of_int 0) 0 = (Ok page, 1) ∧
    length (chats page) = 1.
Proof.
  destruct (null_commenter_skipped
              (constant_feed [null_entry "a" 1; entry "b" "hi" 2; null_entry "c" 3] true)
              1 0 "" (float_of_int 0) 0
              [null_entry "a" 1; entry "b" "hi" 2; null_entry "c" 3] true
              ltac:(done)) as [H _].
  destruct (H eq_refl) as (page & Hp & Hf).
  exists page. split; [done|].
  apply Forall2_length in Hf. by rewrite <- Hf.
Defined.

(** C9, as the code has it.  When the reply carries a non-empty list of
    entries, [part_time] of the returned page is the [contentOffsetSeconds]
    field of the last entry of the reply, whether or not that entry has a
    commenter; it is not computed from the records of the page. *)
Theorem part_time_is_last_entry_field net video_id offset cursor start_time n edges hasNextPage :
  edges ≠ [] →
  ∃ last_edge,
    last edges = Some last_edge ∧
    (net n (VideoCommentByOffsetReq video_id offset) = Reply (Comments edges hasNextPage) →
     ∃ page,
       get_chat_by_offset net video_id offset start_time n = (Ok page, S n) ∧
       part_time page = contentOffsetSeconds (node last_edge)) ∧
    (net n (VideoCommentByCursorReq video_id cursor) = Reply (Comments edges hasNextPage) →
     ∃ page,
       get_chat_by_cursor net video_id cursor start_time n = (Ok page, S n) ∧
       part_time page = contentOffsetSeconds (node last_edge)).
Proof.
  intros Hne.
  destruct (page_of_response_comments edges hasNextPage start_time Hne)
    as (last_edge & records & Hl & _ & Hp).
  exists last_edge. split; [done|]. split; intros Hr.
  - eexists. rewrite (get_chat_by_offset_reply _ _ _ _ _ _ Hr), Hp. split; done.
  - eexists. rewrite (get_chat_by_cursor_reply _ _ _ _ _ _ Hr), Hp. split; done.
Qed.

Lemma part_time_is_last_entry_field_witness :
  ∃ page,
    get_chat_by_cursor (constant_feed [entry "a" "hi" 100; null_entry "b" 105] false)
      1 "z" (float_of_int 0) 0 = (Ok page, 1) ∧
    part_time page = 105%Z.
Proof.
  destruct (part_time_is_last_entry_field
              (constant_feed [entry "a" "hi" 100; null_entry "b" 105] false)
              1 0 "z" (float_of_int 0) 0
              [entry "a" "hi" 100; null_entry "b" 105] false ltac:(done))
    as (last_edge & Hl & _ & H).
  destruct (H eq_refl) as (page & Hp & Ht).
  exists page. split; [done|].
  rewrite Ht. simpl in Hl. by inversion Hl.
Defined.

(** C9, as the claim states it, fails: the last entry of this page has no
    commenter, so the last record of the page is the one of the entry
    before it, at offset 100, while [part_time] is 105. *)
Lemma part_time_not_last_record_offset :
  get_chat_by_offset (constant_feed [entry "a" "hi" 100; null_entry "b" 105] false)
    1 0 (float_of_int 0) 0
  = (Ok {| next := false;
           chats := [ {| SimpleChat.id := "a"; SimpleChat.cursor := "a";
                         SimpleChat.login := "ann"; SimpleChat.displayName := "Ann";
                         SimpleChat.user_id := "7"; SimpleChat.text := "hi";
                         SimpleChat.offset := float_of_int 100 |} ];
           part_time := 105 |}, 1) ∧
  float_of_int 105 ≠ float_of_int 100.
Proof. split; [by_evaluation | done]. Qed.

(** ** The retrieval loops *)

Lemma retry_ext {A} (f g : M A) k n :
  (∀ m, f m = g m) → retry k f n = retry k g n.
Proof.
  intros Hfg. revert n. induction k as [|k IH]; intros n; simpl; [done|].
  rewrite Hfg. destruct (g n) as [[a|[]] n']; auto.
Qed.

Lemma fetch_eq net video_id offset start_time cursor n :
  fetch net video_id offset start_time cursor n =
  retry stop_after_attempt
    (fetch_once net (fetch_request video_id offset cursor) start_time) n.
Proof.
  unfold fetch, fetch_request.
  destruct cursor as [c|]; [destruct (truthy (Some c))|].
  - apply retry_ext. intros m. apply get_chat_by_cursor_once_eq.
  - apply retry_ext. intros m. apply get_chat_by_offset_once_eq.
  - apply retry_ext. intros m. apply get_chat_by_offset_once_eq.
Qed.

(** A call that does not exhaust its attempts returns what its last attempt
    made of the outcome of its request. *)
Lemma retry_fetch_once_inv net req start_time k n r n' :
  retry k (fetch_once net req start_time) n = (r, n') →
  (r = Raise RetryError ∧ n' = n + k) ∨
  (∃ m, n ≤ m < n + k ∧ n' = S m ∧ page_of_outcome (net m req) start_time = r).
Proof.
  revert n. induction k as [|k IH]; intros n; simpl.
  - intros [= <- <-]. left. split; [done | lia].
  - unfold fetch_once at 1.
    destruct (page_of_outcome (net n req) start_time) as [a|e] eqn:Hp.
    + intros [= <- <-]. right. exists n. split; [lia | done].
    + destruct e;
        try (intros [= <- <-]; right; exists n; split; [lia | done]).
      intros Hr. apply IH in Hr as [[-> ->]|(m & Hm & -> & Hpm)].
      * left. split; [done | lia].
      * right. exists m. split; [lia | done].
Qed.

Lemma fetch_inv net video_id offset start_time cursor n r n' :
  fetch net video_id offset start_time cursor n = (r, n') →
  n < n' ∧
  (r = Raise RetryError ∨
   ∃ m, n ≤ m ∧ n' = S m ∧
        page_of_outcome (net m (fetch_request video_id offset cursor)) start_time = r).
Proof.
  rewrite fetch_eq. intros Hr.
  apply retry_fetch_once_inv in Hr as [[-> ->]|(m & Hm & -> & Hp)].
  - split; [unfold stop_after_attempt; lia | by left].
  - split; [lia|]. right. exists m. split; [lia | done].
Qed.

Lemma fetch_reply net video_id offset start_time cursor n r :
  net n (fetch_request video_id offset cursor) = Reply r →
  fetch net video_id offset start_time cursor n = (page_of_response r start_time, S n).
Proof.
  intros Hr. rewrite fetch_eq.
  apply retry_settle; [unfold fetch_once; by rewrite Hr|].
  intros Hp. change (page_of_response r start_time)
    with (page_of_outcome (Reply r) start_time) in Hp.
  by apply page_of_outcome_timeout in Hp.
Qed.

Lemma page_of_response_no_record edges hasNextPage start_time :
  kept edges = [] →
  page_of_response (Comments edges hasNextPage) start_time = Raise IndexError ∨
  ∃ t, page_of_response (Comments edges hasNextPage) start_time =
         Ok {| next := hasNextPage; chats := []; part_time := t |}.
Proof.
  intros Hk. destruct edges as [|e edges]; [by left|]. right.
  destruct (page_of_response_comments (e :: edges) hasNextPage start_time)
    as (last_edge & records & _ & Hf & Hp); [done|].
  rewrite Hk in Hf. apply Forall2_nil_inv_l in Hf as ->. by eexists.
Qed.

(** C10.  When the reply to the request of a loop reports a next page but
    carries no entry with a commenter (the list of entries is empty, or all
    its commenters are null), the iteration raises [IndexError] and the loop
    ends with it: on an empty list of entries the fetcher fails at the last
    entry, otherwise the page has no record and the loop fails at the cursor
    of its last record.  Nothing is requested after that reply. *)
Theorem empty_page_raises_IndexError net fuel video_id start_seconds stop_seconds
    start_time cursor result n edges :
  List.filter (λ i, bool_decide (is_Some (commenter (node i)))) edges = [] →
  (net n (fetch_request video_id start_seconds cursor) = Reply (Comments edges true) →
   get_part_chat_loop net (S fuel) video_id start_seconds stop_seconds start_time
     cursor result n = Some (Raise IndexError, S n)) ∧
  (net n (fetch_request video_id 0 cursor) = Reply (Comments edges true) →
   get_all_chat_loop net (S fuel) video_id start_time cursor result n
     = Some (Raise IndexError, S n)) ∧
  (edges = [] →
   page_of_response (Comments edges true) start_time = Raise IndexError) ∧
  (edges ≠ [] →
   ∃ t, page_of_response (Comments edges true) start_time =
          Ok {| next := true; chats := []; part_time := t |}).
Proof.
  intros Hk. split; [|split; [|split]].
  - intros Hr. simpl. rewrite (fetch_reply _ _ _ _ _ _ _ Hr).
    destruct (page_of_response_no_record edges true start_time Hk) as [->|[t ->]]; done.
  - intros Hr. simpl. rewrite (fetch_reply _ _ _ _ _ _ _ Hr).
    destruct (page_of_response_no_record edges true start_time Hk) as [->|[t ->]]; done.
  - by intros ->.
  - intros Hne.
    destruct (page_of_response_comments edges true start_time Hne)
      as (last_edge & records & _ & Hf & Hp).
    fold (kept edges) in Hk. rewrite Hk in Hf.
    apply Forall2_nil_inv_l in Hf as ->. by eexists.
Qed.

Lemma empty_page_raises_IndexError_witness :
  get_part_chat (constant_feed [null_entry "a" 1; null_entry "b" 2] true) 3 1 0 10 0
    = Some (Raise IndexError, 3) ∧
  get_all_chat (constant_feed [] true) 3 1 0 = Some (Raise IndexError, 5).
Proof.
  split.
  - unfold get_part_chat. simpl get_video_start_time.
    change (get_video_start_time _ 1 0) with (@Ok Time (float_of_int 0), 2).
    cbv iota beta.
    apply (proj1 (empty_page_raises_IndexError _ 2 1 0 10 (float_of_int 0) None []
                    2 [null_entry "a" 1; null_entry "b" 2] eq_refl)).
    reflexivity.
  - unfold get_all_chat.
    change (get_video_start_time _ 1 0) with (@Ok Time (float_of_int 0), 2).
    cbv iota beta.
    change (get_video_length _ 1 2) with (@Ok Z 3600%Z, 4).
    cbv iota beta.
    apply (proj1 (proj2 (empty_page_raises_IndexError _ 2 1 0 10 (float_of_int 0) None []
                    4 [] eq_refl))).
    reflexivity.
Defined.

(** *** Comparisons *)

Lemma float_gtb_true x y : float_gtb x y = true ↔ (y < x)%Qc.
Proof.
  unfold float_gtb. rewrite (Qcgt_alt x y).
  destruct (x ?= y)%Qc; split; done.
Qed.

Lemma float_gtb_false x y : float_gtb x y = false ↔ (x ≤ y)%Qc.
Proof.
  unfold float_gtb. rewrite (Qcle_alt x y).
  destruct (x ?= y)%Qc; split; done.
Qed.

Lemma float_leb_true x y : float_leb x y = true ↔ (x ≤ y)%Qc.
Proof.
  unfold float_leb. rewrite (Qcle_alt x y).
  destruct (x ?= y)%Qc; split; done.
Qed.

Lemma float_leb_false x y : float_leb x y = false ↔ (y < x)%Qc.
Proof.
  unfold float_leb. rewrite (Qcgt_alt x y).
  destruct (x ?= y)%Qc; split; done.
Qed.

(** *** The inner loop of the bounded retriever *)

(** The loop appends the records up to the first one beyond the bound. *)
Lemma consume_stops stop_seconds pre c post result :
  Forall (λ x, (SimpleChat.offset x ≤ float_of_int stop_seconds)%Qc) pre →
  (float_of_int stop_seconds < SimpleChat.offset c)%Qc →
  consume stop_seconds (pre ++ c :: post) result = (result ++ pre, false).
Proof.
  intros Hpre Hc. revert result.
  induction Hpre as [|x pre Hx _ IH]; intros result; simpl.
  - apply float_gtb_true in Hc. rewrite Hc. by rewrite app_nil_r.
  - apply float_gtb_false in Hx. rewrite Hx, IH. by rewrite <- app_assoc.
Qed.

Lemma consume_all stop_seconds page result :
  Forall (λ x, (SimpleChat.offset x ≤ float_of_int stop_seconds)%Qc) page →
  consume stop_seconds page result = (result ++ page, true).
Proof.
  intros Hp. revert result.
  induction Hp as [|x page Hx _ IH]; intros result; simpl.
  - by rewrite app_nil_r.
  - apply float_gtb_false in Hx. rewrite Hx, IH. by rewrite <- app_assoc.
Qed.

Lemma consume_Forall stop_seconds page result :
  Forall (λ x, (SimpleChat.offset x ≤ float_of_int stop_seconds)%Qc) result →
  Forall (λ x, (SimpleChat.offset x ≤ float_of_int stop_seconds)%Qc)
    (consume stop_seconds page result).1.
Proof.
  revert result. induction page as [|x page IH]; intros result Hr; simpl; [done|].
  destruct (float_gtb _ _) eqn:Hx; [done|].
  apply IH, Forall_app. split; [done|].
  constructor; [|constructor]. by apply float_gtb_false.
Qed.


(** *** Window containment *)

Lemma get_part_chat_loop_below_end net fuel video_id start_seconds stop_seconds
    start_time cursor result n out n' :
  Forall (λ x, (SimpleChat.offset x ≤ float_of_int stop_seconds)%Qc) result →
  get_part_chat_loop net fuel video_id start_seconds stop_seconds start_time
    cursor result n = Some (Ok out, n') →
  Forall (λ x, (SimpleChat.offset x ≤ float_of_int stop_seconds)%Qc) out.
Proof.
  revert cursor result n.
  induction fuel as [|fuel IH]; intros cursor result n Hres; simpl; [done|].
  destruct (fetch _ _ _ _ _ _) as [[page|e] n1]; [|done].
  pose proof (consume_Forall stop_seconds (chats page) result Hres) as Hc.
  destruct (consume _ _ _) as [result' stop]. simpl in Hc.
  destruct (next page).
  - destruct (last_item _) as [c|]; [|done].
    destruct stop; [by apply IH|]. by intros [= <- <-].
  - by intros [= <- <-].
Qed.

(** C1, as the code has it.  No record whose offset exceeds the end of the
    window is in the list the bounded retriever returns: every returned
    record has an offset of at most [stop_seconds].  The start of the window
    only selects the first page; the offsets are not compared with it. *)
Theorem returned_records_below_end net fuel video_id start_seconds stop_seconds
    n result n' :
  get_part_chat net fuel video_id start_seconds stop_seconds n = Some (Ok result, n') →
  Forall (λ c, (SimpleChat.offset c ≤ float_of_int stop_seconds)%Qc) result.
Proof.
  unfold get_part_chat.
  destruct (get_video_start_time _ _ _) as [[start_time|e] n1]; [|done].
  by apply get_part_chat_loop_below_end.
Qed.

Lemma returned_records_below_end_witness :
  ∃ result,
    get_part_chat (constant_feed [entry "a" "hi" 12; entry "b" "yo" 15; entry "c" "oh" 25] true)
      4 1 10 20 0 = Some (Ok result, 3) ∧
    length result = 2 ∧
    Forall (λ c, (SimpleChat.offset c ≤ float_of_int 20)%Qc) result.
Proof.
  eexists. split; [vm_compute; reflexivity|]. split; [reflexivity|].
  eapply (returned_records_below_end
            (constant_feed [entry "a" "hi" 12; entry "b" "yo" 15; entry "c" "oh" 25] true)
            4 1 10 20 0 _ 3).
  vm_compute. reflexivity.
Defined.

(** C1, as the claim states it, fails at the lower bound: for the window
    from 10 to 20 the feed serves a page with a record at offset 5, which
    the retriever returns. *)
Lemma returned_record_before_start :
  (10 < 20)%Z ∧
  get_part_chat (constant_feed [entry "a" "hi" 5] false) 1 1 10 20 0
  = Some (Ok [ {| SimpleChat.id := "a"; SimpleChat.cursor := "a";
                  SimpleChat.login := "ann"; SimpleChat.displayName := "Ann";
                  SimpleChat.user_id := "7"; SimpleChat.text := "hi";
                  SimpleChat.offset := float_of_int 5 |} ], 3) ∧
  ¬ (float_of_int 10 ≤ float_of_int 5)%Qc.
Proof.
  split; [done|]. split; [by_evaluation|].
  intros H. apply Qcle_alt in H. by apply H.
Qed.

(** C2.  When the page fetched by an iteration of the bounded retriever
    holds the records [pre], all within the bound, then a record [c] beyond
    it, then [post], the loop returns the records accumulated so far
    followed by [pre]: [c] and [post] are dropped whatever they are, and no
    request is sent after those of this fetch, whatever the page says about
    a next one. *)
Theorem first_record_beyond_end_stops net fuel video_id start_seconds stop_seconds
    start_time cursor result n page n' pre c post :
  fetch net video_id start_seconds start_time cursor n = (Ok page, n') →
  chats page = pre ++ c :: post →
  Forall (λ x, (SimpleChat.offset x ≤ float_of_int stop_seconds)%Qc) pre →
  (float_of_int stop_seconds < SimpleChat.offset c)%Qc →
  get_part_chat_loop net (S fuel) video_id start_seconds stop_seconds start_time
    cursor result n = Some (Ok (result ++ pre), n').
Proof.
  intros Hf Hp Hpre Hc. simpl. rewrite Hf, Hp, (consume_stops _ _ _ _ _ Hpre Hc).
  destruct (next page); [|done].
  unfold last_item. rewrite last_app.
  destruct (last (c :: post)) eqn:Hl; [done|].
  by apply last_None in Hl.
Qed.

Lemma first_record_beyond_end_stops_witness :
  get_part_chat_loop
    (constant_feed [entry "a" "hi" 3; entry "b" "yo" 50; entry "c" "oh" 4] true)
    1 1 0 10 (float_of_int 0) None [] 2
  = Some (Ok ([] ++ [record "a" "hi" 3]), 3).
Proof.
  apply (first_record_beyond_end_stops
           (constant_feed [entry "a" "hi" 3; entry "b" "yo" 50; entry "c" "oh" 4] true)
           0 1 0 10 (float_of_int 0) None [] 2
           {| next := true;
              chats := [record "a" "hi" 3; record "b" "yo" 50; record "c" "oh" 4];
              part_time := 4 |}
           3 [record "a" "hi" 3] (record "b" "yo" 50) [record "c" "oh" 4]).
  - by_evaluation.
  - reflexivity.
  - constructor; [|constructor]. apply float_gtb_false. vm_compute. reflexivity.
  - apply float_gtb_true. vm_compute. reflexivity.
Defined.

(** *** Termination *)





Lemma constant_feed_page edges hasNextPage m req start_time page :
  page_of_outcome (constant_feed edges hasNextPage m req) start_time = Ok page →
  page_of_response (Comments edges hasNextPage) start_time = Ok page.
Proof. destruct req; done. Qed.




(** ** Keyword search *)

Lemma append_String a s q : (String a s ++ q)%string = String a (s ++ q)%string.
Proof. reflexivity. Qed.

Lemma prefix_app sub s :
  String.prefix sub s = true ↔ ∃ q, s = (sub ++ q)%string.
Proof.
  revert s. induction sub as [|a sub IH]; intros s.
  - split; [by exists s | by destruct s].
  - destruct s as [|b s]; simpl; [split; [done | by intros [q ?]]|].
    destruct (Ascii.ascii_dec a b) as [->|Hne].
    + rewrite IH. split; intros [q Hq]; exists q;
        rewrite append_String in *; congruence.
    + split; [done | intros [q Hq]; rewrite append_String in Hq; congruence].
Qed.

(** The test [sub in s] holds exactly when [s] is some [p], then [sub]
    character for character, then some [q]. *)
Lemma str_contains_spec sub s :
  str_contains sub s = true ↔ ∃ p q, s = (p ++ sub ++ q)%string.
Proof.
  induction s as [|a s IH]; cbn [str_contains].
  - rewrite orb_false_r, prefix_app. split.
    + intros [q Hq]. by exists EmptyString, q.
    + intros (p & q & Hq). destruct p; [by exists q|done].
  - rewrite orb_true_iff, prefix_app, IH. split.
    + intros [[q Hq]|(p & q & Hq)].
      * by exists EmptyString, q.
      * exists (String a p), q. by rewrite append_String, Hq.
    + intros (p & q & Hq). destruct p as [|b p].
      * left. by exists q.
      * right. exists p, q. rewrite append_String in Hq. congruence.
Qed.

(** The inner loop appends the record once for each keyword it matches. *)
Lemma search_keywords_inner chat keywords results :
  fold_left
    (λ results keyword, if matches chat keyword then results ++ [chat] else results)
    keywords results
  = results ++ replicate (length (List.filter (matches chat) keywords)) chat.
Proof.
  revert results. induction keywords as [|k keywords IH]; intros results; simpl.
  - by rewrite app_nil_r.
  - rewrite IH. destruct (matches chat k); simpl; [|done].
    by rewrite <- app_assoc.
Qed.

Lemma search_keywords_outer chats keywords results :
  fold_left
    (λ results chat,
       fold_left
         (λ results keyword, if matches chat keyword then results ++ [chat] else results)
         keywords results)
    chats results
  = results ++
    flat_map (λ chat, replicate (length (List.filter (matches chat) keywords)) chat) chats.
Proof.
  revert results. induction chats as [|c chats IH]; intros results; simpl.
  - by rewrite app_nil_r.
  - by rewrite IH, search_keywords_inner, <- app_assoc.
Qed.

Lemma count_occ_replicate (r c : SimpleChat.t) k :
  count_occ SimpleChat.eq_dec (replicate k c) r = if decide (c = r) then k else 0.
Proof.
  induction k as [|k IH]; simpl; [by case_decide|].
  rewrite IH. destruct (SimpleChat.eq_dec c r); by case_decide.
Qed.

(** C7.  [search_keywords] yields, for each record in order, one copy of the
    record for each entry of the keyword list that occurs, character for
    character, in its display name or in its text: a keyword found in both
    fields counts once, a record occurs as many times as the number of
    keyword entries it matches times its occurrences in the input, and a
    record that matches no keyword does not occur. *)
Theorem search_keywords_once_per_keyword chats keywords start_seconds :
  search_keywords chats keywords start_seconds
  = flat_map (λ chat, replicate (length (List.filter (matches chat) keywords)) chat) chats ∧
  (∀ r, count_occ SimpleChat.eq_dec (search_keywords chats keywords start_seconds) r
        = count_occ SimpleChat.eq_dec chats r
          * length (List.filter (matches r) keywords)) ∧
  (∀ r, Forall (λ keyword, matches r keyword = false) keywords →
        r ∉ search_keywords chats keywords start_seconds) ∧
  (∀ chat keyword,
     matches chat keyword = true ↔
     (∃ p q, SimpleChat.displayName chat = (p ++ keyword ++ q)%string) ∨
     (∃ p q, SimpleChat.text chat = (p ++ keyword ++ q)%string)).
Proof.
  assert (Heq : search_keywords chats keywords start_seconds
    = flat_map (λ chat, replicate (length (List.filter (matches chat) keywords)) chat) chats).
  { unfold search_keywords. by rewrite search_keywords_outer. }
  assert (Hcount : ∀ r,
    count_occ SimpleChat.eq_dec (search_keywords chats keywords start_seconds) r
    = count_occ SimpleChat.eq_dec chats r * length (List.filter (matches r) keywords)).
  { intros r. rewrite Heq. clear Heq.
    induction chats as [|c chats IH]; simpl; [done|].
    rewrite count_occ_app, IH, count_occ_replicate.
    destruct (SimpleChat.eq_dec c r) as [->|Hne].
    - rewrite decide_True by done. lia.
    - rewrite decide_False by done. lia. }
  split; [done|]. split; [done|]. split.
  - intros r Hno Hin. apply list_elem_of_In in Hin.
    apply (count_occ_In SimpleChat.eq_dec) in Hin. rewrite Hcount in Hin.
    assert (Hf : List.filter (matches r) keywords = []).
    { clear -Hno. induction Hno as [|k keywords Hk _ IH]; simpl; [done|].
      by rewrite Hk. }
    rewrite Hf in Hin. simpl in Hin. lia.
  - intros chat keyword. unfold matches.
    by rewrite orb_true_iff, !str_contains_spec.
Qed.

Lemma search_keywords_once_per_keyword_witness :
  search_keywords [record "a" "hello world" 3; record "b" "bye" 4]
    ["hello"%string; "Ann"%string; "o w"%string; "Hello"%string] 0
  = [record "a" "hello world" 3; record "a" "hello world" 3;
     record "a" "hello world" 3; record "b" "bye" 4] ∧
  record "c" "hi" 1 ∉
    search_keywords [record "a" "hello world" 3; record "b" "bye" 4] ["zz"%string] 0.
Proof.
  destruct (search_keywords_once_per_keyword
              [record "a" "hello world" 3; record "b" "bye" 4] ["zz"%string] 0)
    as (_ & _ & Hno & _).
  split; [reflexivity|]. apply Hno. by constructor.
Defined.

(** ** Export *)

Lemma insert_by_offset_Permutation x l : insert_by_offset x l ≡ₚ x :: l.
Proof.
  induction l as [|y l IH]; simpl; [done|].
  destruct (float_leb _ _); [done|].
  rewrite IH. apply Permutation_swap.
Qed.

Lemma sort_by_offset_Permutation l : sort_by_offset l ≡ₚ l.
Proof.
  induction l as [|x l IH]; simpl; [done|].
  by rewrite insert_by_offset_Permutation, IH.
Qed.

Lemma insert_by_offset_Sorted x l :
  Sorted offset_le l → Sorted offset_le (insert_by_offset x l).
Proof.
  induction 1 as [|y l Hs IH Hhd]; simpl.
  - by repeat constructor.
  - destruct (float_leb _ _) eqn:Hxy.
    + apply float_leb_true in Hxy. by repeat constructor.
    + apply float_leb_false, Qclt_le_weak in Hxy.
      constructor; [done|].
      destruct Hhd as [|z l Hyz]; simpl.
      * by constructor.
      * destruct (float_leb _ _); by constructor.
Qed.

Lemma sort_by_offset_Sorted l : StronglySorted offset_le (sort_by_offset l).
Proof.
  apply Sorted_StronglySorted.
  - intros a b c. apply Qcle_trans.
  - induction l as [|x l IH]; simpl; [constructor|].
    by apply insert_by_offset_Sorted.
Qed.

Section ExportProperties.
Context `{PySet}.

Lemma final_chats_elem chats start_seconds x :
  x ∈ final_chats chats start_seconds ↔
  ∃ c, c ∈ chats ∧ x = ExportChat.from_simple_chat c start_seconds.
Proof.
  unfold final_chats.
  rewrite sort_by_offset_Permutation, set_iter_elem, list_elem_of_In, in_map_iff.
  split; intros (c & H1 & H2); exists c.
  - by rewrite list_elem_of_In.
  - by rewrite <- list_elem_of_In.
Qed.

Lemma final_chats_NoDup chats start_seconds :
  NoDup (final_chats chats start_seconds).
Proof.
  unfold final_chats. rewrite sort_by_offset_Permutation. apply set_iter_NoDup.
Qed.

(** C5.  [export] writes, under the name made from the drawn identifier and
    leaving the other files as they are, the array of the objects
    [{"displayName": ..., "text": ..., "offset": ...}], members in this
    order, of a list [out] that holds exactly the matched records mapped to
    their display name, their text and their offset minus the start of the
    window, each once, in ascending order of offset.  [main] calls [export]
    only when the list of matched records is not empty; when it is empty,
    [main] returns with the files unchanged. *)
Theorem export_writes_sorted_distinct_records matched start_seconds hex fs :
  (∃ out,
     export matched start_seconds hex fs
       = <[export_name hex :=
             map (λ x, [ ("displayName"%string, JString (ExportChat.displayName x));
                         ("text"%string, JString (ExportChat.text x));
                         ("offset"%string, JNumber (ExportChat.offset x)) ]) out]> fs ∧
     (∀ x, x ∈ out ↔
           ∃ c, c ∈ matched ∧
                x = {| ExportChat.displayName := SimpleChat.displayName c;
                       ExportChat.text := SimpleChat.text c;
                       ExportChat.offset :=
                         (SimpleChat.offset c - float_of_int start_seconds)%Qc |}) ∧
     NoDup out ∧
     StronglySorted (λ a b, (ExportChat.offset a ≤ ExportChat.offset b)%Qc) out ∧
     (∀ name, name ≠ export_name hex →
              export matched start_seconds hex fs !! name = fs !! name)) ∧
  (∀ net fuel video_id end_seconds keywords n chats n',
     get_part_chat net fuel video_id start_seconds end_seconds n = Some (Ok chats, n') →
     search_keywords chats (str_iter keywords) start_seconds = matched →
     main net fuel video_id start_seconds end_seconds keywords hex fs n
     = Some (Ok (match matched with
                 | [] => fs
                 | _ :: _ => export matched start_seconds hex fs
                 end), n')).
Proof.
  split.
  - exists (final_chats matched start_seconds).
    split; [done|]. split; [apply final_chats_elem|].
    split; [apply final_chats_NoDup|].
    split; [apply sort_by_offset_Sorted|].
    intros name Hne. unfold export. by rewrite lookup_insert_ne.
  - intros net fuel video_id end_seconds keywords n chats n' Hget Hsearch.
    unfold main. rewrite Hget, Hsearch. by destruct matched.
Qed.

End ExportProperties.

Lemma export_writes_sorted_distinct_records_witness :
  main (H := first_inserted)
    (constant_feed [entry "a" "hi" 90; entry "b" "yo" 95] false)
    1 1 60 120 "zq" "0123456789abcdef0123456789abcdef" ∅ 0
  = Some (Ok ∅, 3) ∧
  main (H := first_inserted)
    (constant_feed [entry "a" "hi" 90; entry "b" "yo" 95] false)
    1 1 60 120 "oy" "0123456789abcdef0123456789abcdef" ∅ 0
  = Some (Ok (export (H := first_inserted)
                [record "b" "yo" 95; record "b" "yo" 95] 60
                "0123456789abcdef0123456789abcdef" ∅), 3).
Proof.
  split.
  - eapply (proj2 (export_writes_sorted_distinct_records (H := first_inserted)
                     [] 60 "0123456789abcdef0123456789abcdef" ∅)).
    + vm_compute. reflexivity.
    + vm_compute. reflexivity.
  - eapply (proj2 (export_writes_sorted_distinct_records (H := first_inserted)
                     [record "b" "yo" 95; record "b" "yo" 95] 60
                     "0123456789abcdef0123456789abcdef" ∅)).
    + vm_compute. reflexivity.
    + by_evaluation.
Defined.

(** The exported list of the records at offsets 95, 90 and 95 again, for a
    window that starts at 60, and the name of the file. *)
Example final_chats_example :
  final_chats (H := first_inserted)
    [record "b" "yo" 95; record "a" "hi" 90; record "b" "yo" 95] 60
  = [ {| ExportChat.displayName := "Ann"; ExportChat.text := "hi";
         ExportChat.offset := float_of_int 30 |};
      {| ExportChat.displayName := "Ann"; ExportChat.text := "yo";
         ExportChat.offset := float_of_int 35 |} ] ∧
  export_name "0123456789abcdef0123456789abcdef" = "export_012345.json"%string.
Proof. split; [by_evaluation | reflexivity]. Qed.

(** The test is sensitive to case. *)
Example str_contains_case :
  str_contains "hello" "hello world" = true ∧
  str_contains "hello" "HelloBot" = false ∧
  str_contains "" "HelloBot" = true.
Proof. repeat split. Qed.

(** *** The exported list and the iteration order of the set *)

(** Two lists in ascending order of offset with the same elements, each
    once, are equal when no two of their elements share an offset. *)
Lemma sorted_by_offset_unique (l1 l2 : list ExportChat.t) :
  (∀ x y, x ∈ l1 → y ∈ l1 → ExportChat.offset x = ExportChat.offset y → x = y) →
  StronglySorted offset_le l1 → StronglySorted offset_le l2 →
  NoDup l1 → l1 ≡ₚ l2 → l1 = l2.
Proof.
  intros Hinj Hs1. revert l2.
  induction Hs1 as [|x l1 Hs1 IH Hx]; intros l2 Hs2 Hnd Hp.
  - by apply Permutation_nil_l in Hp.
  - destruct Hs2 as [|y l2 Hs2 Hy].
    + by apply Permutation_nil_r in Hp.
    + assert (Hxy : x = y).
      { assert (Hx2 : x ∈ y :: l2) by (rewrite <- Hp; left).
        assert (Hy1 : y ∈ x :: l1) by (rewrite Hp; left).
        apply elem_of_cons in Hx2 as [?|Hx2]; [done|].
        apply elem_of_cons in Hy1 as [?|Hy1]; [done|].
        apply Hinj; [left | by right |].
        apply Qcle_antisym.
        - rewrite Forall_forall in Hx. by apply Hx.
        - rewrite Forall_forall in Hy. by apply Hy. }
      subst y. f_equal. apply IH; [| done | by apply NoDup_cons in Hnd as [_ ?] |].
      * intros a b Ha Hb. apply Hinj; by right.
      * by apply Permutation_cons_inv in Hp.
Qed.

(** Under any two iteration orders the exported lists hold the same
    records; they are the same list when no two exported records share an
    offset. *)
Lemma final_chats_any_order (P1 P2 : PySet) chats start_seconds :
  final_chats (H := P1) chats start_seconds ≡ₚ final_chats (H := P2) chats start_seconds ∧
  ((∀ x y, x ∈ final_chats (H := P1) chats start_seconds →
           y ∈ final_chats (H := P1) chats start_seconds →
           ExportChat.offset x = ExportChat.offset y → x = y) →
   final_chats (H := P1) chats start_seconds = final_chats (H := P2) chats start_seconds).
Proof.
  assert (Hp : final_chats (H := P1) chats start_seconds
                 ≡ₚ final_chats (H := P2) chats start_seconds).
  { apply list.NoDup_Permutation; [apply final_chats_NoDup | apply final_chats_NoDup |].
    intros x. by rewrite !final_chats_elem. }
  split; [done|]. intros Hinj.
  apply sorted_by_offset_unique;
    [done | apply sort_by_offset_Sorted | apply sort_by_offset_Sorted
     | apply final_chats_NoDup | done].
Qed.

(** Two records at the same offset are exported in the order in which the
    set yields them. *)
Example final_chats_tie :
  final_chats (H := first_inserted) [record "a" "hi" 90; record "b" "yo" 90] 60
  = [ {| ExportChat.displayName := "Ann"; ExportChat.text := "hi";
         ExportChat.offset := float_of_int 30 |};
      {| ExportChat.displayName := "Ann"; ExportChat.text := "yo";
         ExportChat.offset := float_of_int 30 |} ] ∧
  final_chats (H := last_inserted) [record "a" "hi" 90; record "b" "yo" 90] 60
  = [ {| ExportChat.displayName := "Ann"; ExportChat.text := "yo";
         ExportChat.offset := float_of_int 30 |};
      {| ExportChat.displayName := "Ann"; ExportChat.text := "hi";
         ExportChat.offset := float_of_int 30 |} ].
Proof. split; by_evaluation. Qed.

(** C6, as the code has it.  Two runs of [export] on the same matched
    records and window start, under any two drawn identifiers, any files and
    any two orders in which the set of the run yields its elements, write
    the arrays of the objects of two lists that hold the same records, each
    once, both in ascending order of offset.  The two lists, and with them
    the two documents, are the same when no two of the exported records share
    an offset, and when the set yields its elements in the same order in
    both runs, as it does within one interpreter process. *)
Theorem export_twice_same_records (P1 P2 : PySet) chats start_seconds
    hex1 hex2 fs1 fs2 :
  export (H := P1) chats start_seconds hex1 fs1 !! export_name hex1
    = Some (map (λ x, [ ("displayName"%string, JString (ExportChat.displayName x));
                        ("text"%string, JString (ExportChat.text x));
                        ("offset"%string, JNumber (ExportChat.offset x)) ])
              (final_chats (H := P1) chats start_seconds)) ∧
  export (H := P2) chats start_seconds hex2 fs2 !! export_name hex2
    = Some (map (λ x, [ ("displayName"%string, JString (ExportChat.displayName x));
                        ("text"%string, JString (ExportChat.text x));
                        ("offset"%string, JNumber (ExportChat.offset x)) ])
              (final_chats (H := P2) chats start_seconds)) ∧
  final_chats (H := P1) chats start_seconds
    ≡ₚ final_chats (H := P2) chats start_seconds ∧
  NoDup (final_chats (H := P1) chats start_seconds) ∧
  StronglySorted (λ a b, (ExportChat.offset a ≤ ExportChat.offset b)%Qc)
    (final_chats (H := P1) chats start_seconds) ∧
  StronglySorted (λ a b, (ExportChat.offset a ≤ ExportChat.offset b)%Qc)
    (final_chats (H := P2) chats start_seconds) ∧
  ((∀ x y, x ∈ final_chats (H := P1) chats start_seconds →
           y ∈ final_chats (H := P1) chats start_seconds →
           ExportChat.offset x = ExportChat.offset y → x = y) →
   export (H := P1) chats start_seconds hex1 fs1 !! export_name hex1
   = export (H := P2) chats start_seconds hex2 fs2 !! export_name hex2) ∧
  ((∀ l, set_iter (PySet := P1) l = set_iter (PySet := P2) l) →
   export (H := P1) chats start_seconds hex1 fs1 !! export_name hex1
   = export (H := P2) chats start_seconds hex2 fs2 !! export_name hex2).
Proof.
  destruct (final_chats_any_order P1 P2 chats start_seconds) as [Hperm Heq].
  unfold export. rewrite !lookup_insert_eq.
  split; [done|]. split; [done|]. split; [done|].
  split; [apply final_chats_NoDup|].
  split; [apply sort_by_offset_Sorted|]. split; [apply sort_by_offset_Sorted|].
  split.
  - intros Hinj. by rewrite (Heq Hinj).
  - intros Hsame. unfold final_chats. by rewrite Hsame.
Qed.

Lemma export_twice_same_records_witness :
  export (H := first_inserted)
    [record "b" "yo" 95; record "a" "hi" 90; record "b" "yo" 95] 60
    "0123456789abcdef" ∅ !! export_name "0123456789abcdef"
  = export (H := last_inserted)
      [record "b" "yo" 95; record "a" "hi" 90; record "b" "yo" 95] 60
      "fedcba9876543210" ∅ !! export_name "fedcba9876543210".
Proof.
  destruct (export_twice_same_records first_inserted last_inserted
              [record "b" "yo" 95; record "a" "hi" 90; record "b" "yo" 95] 60
              "0123456789abcdef" "fedcba9876543210" ∅ ∅)
    as (_ & _ & _ & _ & _ & _ & Hinj & _).
  apply Hinj.
  assert (Hl : final_chats (H := first_inserted)
                 [record "b" "yo" 95; record "a" "hi" 90; record "b" "yo" 95] 60
               = [ {| ExportChat.displayName := "Ann"; ExportChat.text := "hi";
                      ExportChat.offset := float_of_int 30 |};
                   {| ExportChat.displayName := "Ann"; ExportChat.text := "yo";
                      ExportChat.offset := float_of_int 35 |} ]) by by_evaluation.
  rewrite Hl. intros x y Hx Hy.
  repeat (apply elem_of_cons in Hx as [->|Hx]);
    repeat (apply elem_of_cons in Hy as [->|Hy]);
    try (by apply elem_of_nil in Hx); try (by apply elem_of_nil in Hy); done.
Defined.

(** C6, as the claim states it, fails: for two records at the same offset
    the two runs write them in the order in which the set of each run
    yields them, and the two documents differ. *)
Lemma export_twice_differs_on_tie :
  export (H := first_inserted) [record "a" "hi" 90; record "b" "yo" 90] 60
    "0123456789abcdef" ∅ !! export_name "0123456789abcdef"
  = Some [ [ ("displayName"%string, JString "Ann"); ("text"%string, JString "hi");
             ("offset"%string, JNumber (float_of_int 30)) ];
           [ ("displayName"%string, JString "Ann"); ("text"%string, JString "yo");
             ("offset"%string, JNumber (float_of_int 30)) ] ] ∧
  export (H := last_inserted) [record "a" "hi" 90; record "b" "yo" 90] 60
    "fedcba9876543210" ∅ !! export_name "fedcba9876543210"
  = Some [ [ ("displayName"%string, JString "Ann"); ("text"%string, JString "yo");
             ("offset"%string, JNumber (float_of_int 30)) ];
           [ ("displayName"%string, JString "Ann"); ("text"%string, JString "hi");
             ("offset"%string, JNumber (float_of_int 30)) ] ] ∧
  export (H := first_inserted) [record "a" "hi" 90; record "b" "yo" 90] 60
    "0123456789abcdef" ∅ !! export_name "0123456789abcdef"
  ≠ export (H := last_inserted) [record "a" "hi" 90; record "b" "yo" 90] 60
      "fedcba9876543210" ∅ !! export_name "fedcba9876543210".
Proof. split; [by_evaluation|]. split; by_evaluation. Qed.

(** * Further properties *)

(** ** The fetchers and the anchor *)

Lemma retry_never_timeout {A} (f : M A) k n :
  (retry k f n).1 ≠ Raise TimeoutException.
Proof.
  revert n. induction k as [|k IH]; intros n; simpl; [done|].
  destruct (f n) as [[a|e] n'] eqn:Hf; [done|].
  destruct e; simpl; first [apply IH | done].
Qed.

Lemma get_chat_by_offset_retry net video_id offset start_time n :
  get_chat_by_offset net video_id offset start_time n =
  retry stop_after_attempt
    (fetch_once net (VideoCommentByOffsetReq video_id offset) start_time) n.
Proof. apply retry_ext. intros m. apply get_chat_by_offset_once_eq. Qed.

Lemma get_chat_by_cursor_retry net video_id cursor start_time n :
  get_chat_by_cursor net video_id cursor start_time n =
  retry stop_after_attempt
    (fetch_once net (VideoCommentByCursorReq video_id cursor) start_time) n.
Proof. apply retry_ext. intros m. apply get_chat_by_cursor_once_eq. Qed.

Lemma retry_fetch_once_requests net req start_time k n :
  n < (retry (S k) (fetch_once net req start_time) n).2 ≤ n + S k.
Proof.
  destruct (retry (S k) (fetch_once net req start_time) n) as [r n'] eqn:Hr.
  apply retry_fetch_once_inv in Hr as [[_ ->]|(m & Hm & -> & _)]; simpl; lia.
Qed.

(** X1.  A call of either fetcher never raises [TimeoutException] itself:
    a timeout is retried or, at the fifth, replaced by [RetryError].  The
    call sends at least one request and at most five. *)
Theorem fetchers_never_raise_timeout net video_id offset cursor start_time n :
  (get_chat_by_offset net video_id offset start_time n).1 ≠ Raise TimeoutException ∧
  n < (get_chat_by_offset net video_id offset start_time n).2 ≤ n + 5 ∧
  (get_chat_by_cursor net video_id cursor start_time n).1 ≠ Raise TimeoutException ∧
  n < (get_chat_by_cursor net video_id cursor start_time n).2 ≤ n + 5.
Proof.
  rewrite get_chat_by_offset_retry, get_chat_by_cursor_retry.
  pose proof (retry_fetch_once_requests net (VideoCommentByOffsetReq video_id offset)
                start_time 4 n) as Ho.
  pose proof (retry_fetch_once_requests net (VideoCommentByCursorReq video_id cursor)
                start_time 4 n) as Hc.
  unfold stop_after_attempt.
  split; [apply retry_never_timeout|]. split; [lia|].
  split; [apply retry_never_timeout | lia].
Qed.

(** The result of the lookup of the anchor, by the outcomes of its two
    requests. *)
Lemma get_video_start_time_eq net video_id n :
  get_video_start_time net video_id n =
  match net n (ChannelVideoCoreReq video_id) with
  | Timeout => (Raise TimeoutException, S n)
  | Failure => (Raise HTTPError, S n)
  | Reply (Owner channel_login) =>
      match net (S n) (VideoMetadataReq channel_login video_id) with
      | Timeout => (Raise TimeoutException, S (S n))
      | Failure => (Raise HTTPError, S (S n))
      | Reply (Metadata t _) => (Ok t, S (S n))
      | Reply _ => (Raise KeyError, S (S n))
      end
  | Reply _ => (Raise KeyError, S n)
  end.
Proof.
  unfold get_video_start_time, bind, post, lift.
  destruct (net n _) as [| |[]]; try done.
  simpl. destruct (net (S n) _) as [| |[]]; done.
Qed.

(** X2.  The lookup of the anchor is not retried.  When the request for the
    channel or, after it, the request for the metadata times out, the
    lookup raises [TimeoutException] at once, and both retrievers end with
    it without a request for comments, whatever the fuel; the second
    request carries the login the first one returned. *)
Theorem anchor_timeout_is_fatal net fuel video_id start_seconds stop_seconds n :
  (net n (ChannelVideoCoreReq video_id) = Timeout →
   get_video_start_time net video_id n = (Raise TimeoutException, S n) ∧
   get_part_chat net fuel video_id start_seconds stop_seconds n
     = Some (Raise TimeoutException, S n) ∧
   get_all_chat net fuel video_id n = Some (Raise TimeoutException, S n)) ∧
  (∀ channel_login,
     net n (ChannelVideoCoreReq video_id) = Reply (Owner channel_login) →
     net (S n) (VideoMetadataReq channel_login video_id) = Timeout →
     get_video_start_time net video_id n = (Raise TimeoutException, S (S n)) ∧
     get_part_chat net fuel video_id start_seconds stop_seconds n
       = Some (Raise TimeoutException, S (S n)) ∧
     get_all_chat net fuel video_id n = Some (Raise TimeoutException, S (S n))).
Proof.
  split.
  - intros H1. unfold get_part_chat, get_all_chat.
    rewrite get_video_start_time_eq, H1. done.
  - intros channel_login H1 H2. unfold get_part_chat, get_all_chat.
    rewrite get_video_start_time_eq, H1, H2. done.
Qed.

(** A feed whose every request times out. *)
Lemma anchor_timeout_is_fatal_witness :
  get_part_chat (λ _ _, Timeout) 0 1 10 20 0 = Some (Raise TimeoutException, 1) ∧
  get_all_chat (λ _ _, Timeout) 7 1 0 = Some (Raise TimeoutException, 1).
Proof.
  destruct (anchor_timeout_is_fatal (λ _ _, Timeout) 0 1 10 20 0) as [H _].
  destruct (anchor_timeout_is_fatal (λ _ _, Timeout) 7 1 10 20 0) as [H' _].
  split; [apply H | apply H']; reflexivity.
Defined.

(** ** Pages in chronological order *)

Lemma consume_result stop_seconds page result :
  consume stop_seconds page result =
  (result ++ (consume stop_seconds page []).1, (consume stop_seconds page []).2).
Proof.
  revert result. induction page as [|x page IH]; intros result; simpl.
  - by rewrite app_nil_r.
  - destruct (float_gtb _ _); simpl; [by rewrite app_nil_r|].
    rewrite (IH (result ++ [x])), (IH [x]). simpl. by rewrite <- app_assoc.
Qed.

Lemma filter_within_none stop_seconds (page : list SimpleChat.t) :
  Forall (λ y, ¬ within stop_seconds y) page → filter (within stop_seconds) page = [].
Proof.
  induction 1 as [|y page Hy _ IH]; [done|].
  by rewrite filter_cons_False.
Qed.

(** X3.  On a page whose records are in ascending order of offset, the
    inner loop of the bounded retriever appends exactly the records of the
    page that are within the bound, and leaves [stop] true exactly when all
    of them are. *)
Theorem consume_chronological stop_seconds page result :
  StronglySorted (λ a b, (SimpleChat.offset a ≤ SimpleChat.offset b)%Qc) page →
  consume stop_seconds page result =
  (result ++ filter (within stop_seconds) page,
   bool_decide (Forall (within stop_seconds) page)).
Proof.
  intros Hs. revert result.
  induction Hs as [|x page Hs IH Hx]; intros result; simpl.
  - by rewrite app_nil_r.
  - destruct (float_gtb _ _) eqn:Hg.
    + apply float_gtb_true, Qclt_not_le in Hg.
      assert (Hout : Forall (λ y, ¬ within stop_seconds y) (x :: page)).
      { constructor; [done|].
        eapply Forall_impl; [exact Hx|]. intros y Hxy Hw. apply Hg.
        simpl in Hxy. unfold within in Hw.
        exact (Qcle_trans _ _ _ Hxy Hw). }
      rewrite filter_within_none, app_nil_r by done.
      rewrite bool_decide_eq_false_2; [done|].
      intros Hall. apply Forall_cons in Hall as [Hw _].
      by apply Forall_cons in Hout as [Hnw _].
    + apply float_gtb_false in Hg. rewrite IH.
      rewrite filter_cons_True by done. rewrite <- app_assoc. simpl.
      f_equal. apply bool_decide_ext. rewrite Forall_cons. tauto.
Qed.

Lemma consume_chronological_witness :
  consume 10 [record "a" "x" 3; record "b" "y" 7; record "c" "z" 12; record "d" "w" 15] []
  = ([] ++ filter (within 10)
             [record "a" "x" 3; record "b" "y" 7; record "c" "z" 12; record "d" "w" 15],
     bool_decide (Forall (within 10)
             [record "a" "x" 3; record "b" "y" 7; record "c" "z" 12; record "d" "w" 15])).
Proof.
  apply consume_chronological.
  repeat (constructor; [|repeat (constructor; [by apply float_gtb_false|])]);
    constructor.
Defined.

(** ** The pages a loop is served *)

(** X4.  The unbounded retriever returns the records of the pages it is
    served, page after page in the order served, each record once: when the
    pages [pages] are served to the loop and the last of them reports no
    further page, the loop returns its accumulator followed by the records of
    all the pages, and has sent no request after the last page. *)
Theorem get_all_chat_returns_served_pages net fuel video_id start_time n cursor
    pages page n_end result :
  served net video_id 0 start_time n cursor pages n_end →
  last pages = Some page → next page = false →
  length pages ≤ fuel →
  get_all_chat_loop net fuel video_id start_time cursor result n
  = Some (Ok (result ++ concat (map chats pages)), n_end).
Proof.
  revert fuel n cursor result.
  induction pages as [|p pages IH]; intros fuel n cursor result Hs Hl Hn Hf; [done|].
  destruct fuel as [|fuel]; [simpl in Hf; lia|].
  destruct pages as [|q pages].
  - simpl in Hs, Hl. injection Hl as ->. simpl. rewrite Hs, Hn.
    by rewrite app_nil_r.
  - destruct Hs as (n' & c & Hfetch & Hnext & Hlast & Hs).
    cbn [get_all_chat_loop]. rewrite Hfetch, Hnext.
    unfold last_item. rewrite Hlast.
    rewrite (IH fuel n' (Some (SimpleChat.cursor c)) (result ++ chats p) Hs);
      [| done | done | simpl in *; lia].
    cbn [map concat]. by rewrite <- app_assoc.
Qed.

Lemma get_all_chat_returns_served_pages_witness :
  get_all_chat_loop
    (paged_feed [([entry "a" "x" 3; entry "b" "y" 70], true); ([entry "c" "z" 80], false)])
    2 1 (float_of_int 0) None [] 2
  = Some (Ok ([] ++ concat (map chats
                [ {| next := true; chats := [record "a" "x" 3; record "b" "y" 70];
                     part_time := 70 |};
                  {| next := false; chats := [record "c" "z" 80]; part_time := 80 |} ])),
          4).
Proof.
  eapply (get_all_chat_returns_served_pages _ 2 1 (float_of_int 0) 2 None
            [ {| next := true; chats := [record "a" "x" 3; record "b" "y" 70];
                 part_time := 70 |};
              {| next := false; chats := [record "c" "z" 80]; part_time := 80 |} ]).
  - exists 3, (record "b" "y" 70).
    split; [by_evaluation|]. split; [done|]. split; [done|]. cbn [served]. by_evaluation.
  - reflexivity.
  - reflexivity.
  - simpl. lia.
Defined.

(** X5.  The bounded retriever returns the records of the pages it is
    served up to the page that ends the retrieval: when the pages [pages],
    whose records are all within the bound, and then [page] are served to the
    loop, and [page] reports no further page or holds a record beyond the
    bound, the loop returns its accumulator, the records of [pages] and the
    records of [page] that come before its first record beyond the bound;
    it has sent no request after [page]. *)
Theorem get_part_chat_returns_served_pages net fuel video_id start_seconds
    stop_seconds start_time n cursor pages page n_end result :
  served net video_id start_seconds start_time n cursor (pages ++ [page]) n_end →
  Forall (λ p, Forall (within stop_seconds) (chats p)) pages →
  next page = false ∨ ¬ Forall (within stop_seconds) (chats page) →
  length pages < fuel →
  get_part_chat_loop net fuel video_id start_seconds stop_seconds start_time
    cursor result n
  = Some (Ok (result ++ concat (map chats pages)
                ++ (consume stop_seconds (chats page) []).1), n_end).
Proof.
  revert fuel n cursor result.
  induction pages as [|p pages IH]; intros fuel n cursor result Hs Hin Hend Hf.
  - destruct fuel as [|fuel]; [simpl in Hf; lia|].
    simpl in Hs. simpl. rewrite Hs.
    rewrite (consume_result stop_seconds (chats page) result).
    destruct (next page) eqn:Hnext; [|done].
    destruct Hend as [?|Hex]; [done|].
    destruct (consume stop_seconds (chats page) []) as [kept_records stop] eqn:Hc.
    assert (stop = false) as ->.
    { destruct stop; [|done]. exfalso. apply Hex.
      clear -Hc. revert Hc. generalize (@nil SimpleChat.t).
      induction (chats page) as [|x l IHl]; intros acc; simpl; [constructor|].
      destruct (float_gtb _ _) eqn:Hg; [done|].
      intros Hc. constructor; [by apply float_gtb_false | by eapply IHl]. }
    simpl. unfold last_item.
    destruct (last (chats page)) eqn:Hl; [done|].
    apply last_None in Hl. rewrite Hl in Hex. exfalso. apply Hex. constructor.
  - destruct fuel as [|fuel]; [simpl in Hf; lia|].
    apply Forall_cons in Hin as [Hp Hin].
    change ((p :: pages) ++ [page]) with (p :: (pages ++ [page])) in Hs.
    cbn [served] in Hs.
    destruct (pages ++ [page]) as [|q rest] eqn:Hrest;
      [by destruct pages|].
    destruct Hs as (n' & c & Hfetch & Hnext & Hlast & Hs).
    cbn [get_part_chat_loop]. rewrite Hfetch.
    rewrite (consume_all _ _ _ Hp), Hnext.
    unfold last_item. rewrite Hlast.
    rewrite (IH fuel n' (Some (SimpleChat.cursor c)) (result ++ chats p));
      [| done | done | done | simpl in *; lia].
    cbn [map concat]. by rewrite <- !app_assoc.
Qed.

Lemma get_part_chat_returns_served_pages_witness :
  get_part_chat_loop
    (paged_feed [([entry "a" "x" 3; entry "b" "y" 7], true);
                 ([entry "c" "z" 9; entry "d" "w" 12; entry "e" "v" 8], true)])
    2 1 0 10 (float_of_int 0) None [] 2
  = Some (Ok ([] ++ concat (map chats
                [ {| next := true; chats := [record "a" "x" 3; record "b" "y" 7];
                     part_time := 7 |} ])
                ++ (consume 10 [record "c" "z" 9; record "d" "w" 12; record "e" "v" 8] []).1),
          4).
Proof.
  eapply (get_part_chat_returns_served_pages _ 2 1 0 10 (float_of_int 0) 2 None
            [ {| next := true; chats := [record "a" "x" 3; record "b" "y" 7];
                 part_time := 7 |} ]
            {| next := true;
               chats := [record "c" "z" 9; record "d" "w" 12; record "e" "v" 8];
               part_time := 8 |}).
  - exists 3, (record "b" "y" 7).
    split; [by_evaluation|]. split; [done|]. split; [done|].
    cbn [app served]. by_evaluation.
  - repeat constructor; by apply float_gtb_false.
  - right. intros Hall. apply Forall_cons in Hall as [_ Hall].
    apply Forall_cons in Hall as [Hd _]. by apply float_gtb_false in Hd.
  - simpl. lia.
Defined.

(** X6.  The two retrievers differ only in the test against the end of the
    window: from a state of the feed on which no page served holds a record
    beyond [stop_seconds], the bounded loop started at offset 0 and the
    unbounded loop return the same result after the same requests, and run
    out of the same fuel. *)
Theorem bounded_loop_equals_unbounded net fuel video_id stop_seconds start_time
    cursor result n :
  (∀ m req page, n ≤ m →
     page_of_outcome (net m req) start_time = Ok page →
     Forall (within stop_seconds) (chats page)) →
  get_part_chat_loop net fuel video_id 0 stop_seconds start_time cursor result n
  = get_all_chat_loop net fuel video_id start_time cursor result n.
Proof.
  revert cursor result n.
  induction fuel as [|fuel IH]; intros cursor result n Hin; [done|].
  cbn [get_part_chat_loop get_all_chat_loop].
  destruct (fetch net video_id 0 start_time cursor n) as [[page|e] n'] eqn:Hf; [|done].
  apply fetch_inv in Hf as [Hlt [?|(m & Hm & _ & Hp)]]; [done|].
  rewrite (consume_all _ _ _ (Hin m _ page Hm Hp)).
  destruct (next page); [|done].
  destruct (last_item (chats page)); [|done].
  apply IH. intros m' req page' Hm'. apply Hin. lia.
Qed.

Lemma bounded_loop_equals_unbounded_witness :
  get_part_chat_loop (constant_feed [entry "a" "x" 3] false) 1 1 0 10 (float_of_int 0) None [] 2
  = get_all_chat_loop (constant_feed [entry "a" "x" 3] false) 1 1 (float_of_int 0) None [] 2.
Proof.
  apply bounded_loop_equals_unbounded.
  intros m req page _ Hp. apply constant_feed_page in Hp. injection Hp as <-.
  simpl. repeat constructor. by apply float_gtb_false.
Defined.

(** ** More on the keyword search *)

Lemma search_keywords_flat_map chats keywords start_seconds :
  search_keywords chats keywords start_seconds
  = flat_map (λ chat, replicate (length (List.filter (matches chat) keywords)) chat) chats.
Proof. unfold search_keywords. by rewrite search_keywords_outer. Qed.

Lemma filter_matches_nonempty chat keywords :
  0 < length (List.filter (matches chat) keywords) ↔
  ∃ keyword, keyword ∈ keywords ∧ matches chat keyword = true.
Proof.
  split.
  - destruct (List.filter _ _) as [|k l] eqn:Hf; simpl; [lia|]. intros _.
    assert (Hk : In k (List.filter (matches chat) keywords)) by (rewrite Hf; by left).
    apply filter_In in Hk as [Hk Hm]. exists k. by rewrite list_elem_of_In.
  - intros (k & Hk & Hm).
    assert (Hin : In k (List.filter (matches chat) keywords)).
    { apply filter_In. by rewrite <- list_elem_of_In. }
    destruct (List.filter _ _); [done | simpl; lia].
Qed.

Lemma search_keywords_elem chats keywords start_seconds r :
  r ∈ search_keywords chats keywords start_seconds ↔
  r ∈ chats ∧ ∃ keyword, keyword ∈ keywords ∧ matches r keyword = true.
Proof.
  rewrite search_keywords_flat_map, list_elem_of_In, in_flat_map.
  split.
  - intros (c & Hc & Hr). apply list_elem_of_In in Hr.
    apply elem_of_replicate in Hr as [-> Hn].
    split; [by apply list_elem_of_In|]. apply filter_matches_nonempty. lia.
  - intros (Hr & Hk). exists r. split; [by apply list_elem_of_In|].
    apply list_elem_of_In, elem_of_replicate. split; [done|].
    apply filter_matches_nonempty in Hk. lia.
Qed.

Lemma matches_empty chat : matches chat EmptyString = true.
Proof. unfold matches. by destruct (SimpleChat.displayName chat). Qed.

(** X7.  A record is in the result of [search_keywords] exactly when it is
    among the records searched and matches one of the keywords.  For a
    single keyword the result is the list of the records that match it, in
    their order; the empty keyword matches every record, so that it keeps
    the whole list; without a keyword the result is empty. *)
Theorem search_keywords_is_a_filter chats keywords keyword start_seconds :
  (∀ r, r ∈ search_keywords chats keywords start_seconds ↔
        r ∈ chats ∧ ∃ k, k ∈ keywords ∧ matches r k = true) ∧
  search_keywords chats [keyword] start_seconds
    = List.filter (λ chat, matches chat keyword) chats ∧
  search_keywords chats [EmptyString] start_seconds = chats ∧
  search_keywords chats [] start_seconds = [].
Proof.
  split; [intros r; apply search_keywords_elem|].
  assert (Hone : ∀ k, search_keywords chats [k] start_seconds
                      = List.filter (λ chat, matches chat k) chats).
  { intros k. rewrite search_keywords_flat_map.
    induction chats as [|c chats IH]; [done|].
    cbn [flat_map]. rewrite IH. cbn [List.filter].
    by destruct (matches c k). }
  split; [apply Hone|]. split.
  - rewrite Hone. clear Hone. induction chats as [|c chats IH]; [done|].
    cbn [List.filter]. by rewrite matches_empty, IH.
  - rewrite search_keywords_flat_map. clear Hone.
    induction chats as [|c chats IH]; [done | exact IH].
Qed.

(** X8.  The search goes through the records one by one: the result for
    two lists of records one after the other is the result for the first
    followed by the result for the second.  Splitting the list of keywords in
    two changes the order of the result at most, not the records in it nor
    how often each occurs. *)
Theorem search_keywords_app chats1 chats2 keywords1 keywords2 start_seconds :
  search_keywords (chats1 ++ chats2) keywords1 start_seconds
    = search_keywords chats1 keywords1 start_seconds
      ++ search_keywords chats2 keywords1 start_seconds ∧
  search_keywords chats1 (keywords1 ++ keywords2) start_seconds
    ≡ₚ search_keywords chats1 keywords1 start_seconds
       ++ search_keywords chats1 keywords2 start_seconds.
Proof.
  split.
  - rewrite !search_keywords_flat_map. apply flat_map_app.
  - rewrite !search_keywords_flat_map.
    induction chats1 as [|c chats IH]; simpl; [done|].
    rewrite List.filter_app, length_app, replicate_add, IH.
    rewrite <- !app_assoc. f_equiv.
    rewrite !app_assoc. f_equiv. apply Permutation_app_comm.
Qed.

Lemma join_cons w ws : SimpleChat.join (w :: ws) = (w ++ SimpleChat.join ws)%string.
Proof. reflexivity. Qed.

(** The characters of a string, one after the other, make up the string. *)
Lemma str_iter_join s : SimpleChat.join (str_iter s) = s.
Proof.
  induction s as [|a s IH]; [done|]. cbn [str_iter].
  destruct (str_iter s) as [|w ws].
  - by rewrite <- IH.
  - rewrite join_cons in IH.
    destruct (starts_with_continuation s).
    + by rewrite join_cons, append_String, IH.
    + by rewrite !join_cons, append_String, IH.
Qed.

(** The first of the strings [str_iter] yields starts with the first byte
    of the string and goes on with continuation bytes; the others are
    characters. *)
Lemma str_iter_shape a s :
  ∃ rest ws,
    str_iter (String a s) = String a rest :: ws ∧
    forallb is_continuation (String.list_ascii_of_string rest) = true ∧
    Forall character ws.
Proof.
  revert a. induction s as [|b s IH]; intros a.
  - exists EmptyString, []. by repeat split.
  - destruct (IH b) as (rest & ws & Hs & Hrest & Hws).
    cbn [str_iter] in *. rewrite Hs. cbn [starts_with_continuation].
    destruct (is_continuation b) eqn:Hb.
    + exists (String b rest), ws. split; [done|]. split; [|done].
      simpl. by rewrite Hb.
    + exists EmptyString, (String b rest :: ws). split; [done|]. split; [done|].
      constructor; [|done]. by exists b, rest.
Qed.

Lemma str_iter_characters s :
  starts_with_continuation s = false → Forall character (str_iter s).
Proof.
  destruct s as [|a s]; [constructor|]. simpl starts_with_continuation. intros Ha.
  destruct (str_iter_shape a s) as (rest & ws & -> & Hrest & Hws).
  constructor; [|done]. by exists a, rest.
Qed.

Section MainProperties.
Context `{PySet}.

(** X9.  [main] hands the keyword argument of the command line to the
    search as it is, a string, which the search goes through character by
    character: the records matched are the retrieved records whose display
    name or text holds at least one character of the argument, whether or
    not the argument as a whole occurs in them.  The characters are those of
    the string: joined they give the argument back, and each is the
    encoding of one character when the argument does not start in the middle
    of one. *)
Theorem main_matches_characters net fuel video_id start_seconds end_seconds
    keywords hex fs n chats n' :
  get_part_chat net fuel video_id start_seconds end_seconds n = Some (Ok chats, n') →
  ∃ matched,
    main net fuel video_id start_seconds end_seconds keywords hex fs n
    = Some (Ok (match matched with
                | [] => fs
                | _ :: _ => export matched start_seconds hex fs
                end), n') ∧
    (∀ r, r ∈ matched ↔
          r ∈ chats ∧
          ∃ ch, ch ∈ str_iter keywords ∧
                ((∃ p q, SimpleChat.displayName r = (p ++ ch ++ q)%string) ∨
                 (∃ p q, SimpleChat.text r = (p ++ ch ++ q)%string))) ∧
    SimpleChat.join (str_iter keywords) = keywords ∧
    (starts_with_continuation keywords = false →
     Forall character (str_iter keywords)).
Proof.
  intros Hget.
  exists (search_keywords chats (str_iter keywords) start_seconds).
  split; [|split; [|split]].
  - unfold main. rewrite Hget. by destruct (search_keywords _ _ _).
  - intros r. rewrite search_keywords_elem.
    split; intros (Hr & ch & Hch & Hm); (split; [done|]); exists ch; (split; [done|]).
    + unfold matches in Hm. apply orb_true_iff in Hm.
      by rewrite !str_contains_spec in Hm.
    + unfold matches. apply orb_true_iff. by rewrite !str_contains_spec.
  - apply str_iter_join.
  - apply str_iter_characters.
Qed.
End MainProperties.

Lemma main_matches_characters_witness :
  ∃ matched,
    main (H := first_inserted) (constant_feed [entry "a" "oh" 70] false)
      1 1 60 120 "hello" "0123456789abcdef0123456789abcdef" ∅ 0
    = Some (Ok (match matched with
                | [] => ∅
                | _ :: _ => export (H := first_inserted) matched 60
                              "0123456789abcdef0123456789abcdef" ∅
                end), 3) ∧
    record "a" "oh" 70 ∈ matched.
Proof.
  destruct (main_matches_characters (H := first_inserted)
              (constant_feed [entry "a" "oh" 70] false) 1 1 60 120 "hello"
              "0123456789abcdef0123456789abcdef" ∅ 0 [record "a" "oh" 70] 3)
    as (matched & Hmain & Hm & _); [by_evaluation|].
  exists matched. split; [done|]. apply Hm. split; [by left|].
  exists "h"%string. split; [by left|]. right. by exists "o"%string, EmptyString.
Defined.

(** A character of two bytes is one keyword, and matches no character that
    shares only its first byte with it. *)
Example str_iter_two_bytes :
  str_iter "né" = ["n"%string; "é"%string] ∧
  str_iter "a€b" = ["a"%string; "€"%string; "b"%string] ∧
  String.length "é" = 2 ∧
  search_keywords [record "a" "è" 3] (str_iter "é") 0 = [] ∧
  search_keywords [record "a" "café" 3] (str_iter "é") 0 = [record "a" "café" 3].
Proof. repeat split. Qed.

(** ** More on the export *)

Lemma append_length s1 s2 :
  String.length (s1 ++ s2) = String.length s1 + String.length s2.
Proof.
  induction s1 as [|a s1 IH]; [done|].
  rewrite append_String. simpl. by rewrite IH.
Qed.

Lemma append_inj_l s x y : (s ++ x)%string = (s ++ y)%string → x = y.
Proof.
  induction s as [|a s IH]; [done|].
  rewrite !append_String. intros [= Heq]. by apply IH.
Qed.

Lemma append_inj_r x y s : (x ++ s)%string = (y ++ s)%string → x = y.
Proof.
  revert y. induction x as [|a x IH]; intros [|b y] Heq; [done| | |].
  - apply (f_equal String.length) in Heq.
    rewrite !append_length in Heq. simpl in Heq. lia.
  - apply (f_equal String.length) in Heq.
    rewrite !append_length in Heq. simpl in Heq. lia.
  - rewrite !append_String in Heq. injection Heq as -> Heq.
    f_equal. by apply IH.
Qed.

Section ExportMore.
Context `{PySet}.

Lemma final_chats_length chats start_seconds :
  length (final_chats chats start_seconds) ≤ length chats.
Proof.
  rewrite <- (length_map (λ chat, ExportChat.from_simple_chat chat start_seconds) chats).
  apply submseteq_length, NoDup_submseteq; [apply final_chats_NoDup|].
  intros x (c & Hc & ->)%final_chats_elem.
  apply list_elem_of_In, in_map_iff. exists c. split; [done|].
  by apply list_elem_of_In.
Qed.

(** X10.  The copies of a record that the search makes, one for each
    keyword it matches, do not reach the file: for every order in which the
    set yields its elements, the list exported for the result of a search
    holds the same objects, each once, as the list exported for the records
    that match at least one keyword, and no more objects than there are such
    records. *)
Theorem export_of_search_has_no_copies chats keywords start_seconds :
  final_chats (search_keywords chats keywords start_seconds) start_seconds
    ≡ₚ final_chats (List.filter (λ chat, existsb (matches chat) keywords) chats)
         start_seconds ∧
  length (final_chats (search_keywords chats keywords start_seconds) start_seconds)
    ≤ length (List.filter (λ chat, existsb (matches chat) keywords) chats).
Proof.
  assert (Hp : final_chats (search_keywords chats keywords start_seconds) start_seconds
    ≡ₚ final_chats (List.filter (λ chat, existsb (matches chat) keywords) chats)
         start_seconds).
  { apply list.NoDup_Permutation; [apply final_chats_NoDup | apply final_chats_NoDup |].
    intros x. rewrite !final_chats_elem.
    split; intros (c & Hc & ->); exists c; (split; [|done]).
    - apply search_keywords_elem in Hc as (Hc & k & Hk & Hm).
      apply list_elem_of_In, filter_In. split; [by apply list_elem_of_In|].
      apply existsb_exists. exists k. by rewrite <- list_elem_of_In.
    - apply list_elem_of_In, filter_In in Hc as [Hc Hex].
      apply existsb_exists in Hex as (k & Hk & Hm).
      apply search_keywords_elem. split; [by apply list_elem_of_In|].
      exists k. by rewrite list_elem_of_In. }
  split; [done|]. rewrite Hp. apply final_chats_length.
Qed.

(** X11.  A record is exported by its display name, its text and its
    offset only: two matched records that agree on these three, whatever
    their identifiers, cursors and logins, give one object, and the exported
    list has at most as many objects as there are matched records. *)
Theorem export_merges_equal_triples c1 c2 chats start_seconds :
  SimpleChat.displayName c1 = SimpleChat.displayName c2 →
  SimpleChat.text c1 = SimpleChat.text c2 →
  SimpleChat.offset c1 = SimpleChat.offset c2 →
  final_chats (c1 :: c2 :: chats) start_seconds
    ≡ₚ final_chats (c2 :: chats) start_seconds ∧
  length (final_chats (c1 :: c2 :: chats) start_seconds) ≤ S (length chats).
Proof.
  intros Hd Ht Ho.
  assert (He : ExportChat.from_simple_chat c1 start_seconds
               = ExportChat.from_simple_chat c2 start_seconds).
  { unfold ExportChat.from_simple_chat. by rewrite Hd, Ht, Ho. }
  assert (Hp : final_chats (c1 :: c2 :: chats) start_seconds
                 ≡ₚ final_chats (c2 :: chats) start_seconds).
  { apply list.NoDup_Permutation; [apply final_chats_NoDup | apply final_chats_NoDup |].
    intros x. rewrite !final_chats_elem. split.
    - intros (c & Hc & ->). apply elem_of_cons in Hc as [->|Hc].
      + exists c2. split; [left | done].
      + by exists c.
    - intros (c & Hc & ->). exists c. split; [by right | done]. }
  split; [done|]. rewrite Hp. apply (final_chats_length (c2 :: chats)).
Qed.

(** X12.  The name of the exported file depends on the first six characters
    of the drawn identifier only: two identifiers give the same name exactly
    when they agree on these, and then the second of two exports replaces
    the document of the first, leaving one file. *)
Theorem export_name_collision hex1 hex2 chats1 chats2 start_seconds fs :
  (export_name hex1 = export_name hex2 ↔
   String.substring 0 6 hex1 = String.substring 0 6 hex2) ∧
  (String.substring 0 6 hex1 = String.substring 0 6 hex2 →
   export chats2 start_seconds hex2 (export chats1 start_seconds hex1 fs)
   = export chats2 start_seconds hex2 fs).
Proof.
  assert (Hname : export_name hex1 = export_name hex2 ↔
                  String.substring 0 6 hex1 = String.substring 0 6 hex2).
  { unfold export_name. split; [|by intros ->].
    intros Heq. apply append_inj_l in Heq. by apply append_inj_r in Heq. }
  split; [done|]. intros Hsub. unfold export.
  apply Hname in Hsub. rewrite Hsub. apply insert_insert_eq.
Qed.
End ExportMore.

Lemma export_merges_equal_triples_witness :
  final_chats (H := first_inserted)
    [ {| SimpleChat.id := "1"; SimpleChat.cursor := "k1"; SimpleChat.login := "ann";
         SimpleChat.displayName := "Ann"; SimpleChat.user_id := "7";
         SimpleChat.text := "hi"; SimpleChat.offset := float_of_int 90 |};
      {| SimpleChat.id := "2"; SimpleChat.cursor := "k2"; SimpleChat.login := "ann2";
         SimpleChat.displayName := "Ann"; SimpleChat.user_id := "8";
         SimpleChat.text := "hi"; SimpleChat.offset := float_of_int 90 |} ] 60
  ≡ₚ final_chats (H := first_inserted)
    [ {| SimpleChat.id := "2"; SimpleChat.cursor := "k2"; SimpleChat.login := "ann2";
         SimpleChat.displayName := "Ann"; SimpleChat.user_id := "8";
         SimpleChat.text := "hi"; SimpleChat.offset := float_of_int 90 |} ] 60.
Proof.
  apply (export_merges_equal_triples (H := first_inserted)); reflexivity.
Defined.

Lemma export_name_collision_witness :
  export (H := first_inserted) [record "b" "yo" 95] 60 "0123456789abcdef"
    (export (H := first_inserted) [record "a" "hi" 90] 60 "012345ffffffffff" ∅)
  = export (H := first_inserted) [record "b" "yo" 95] 60 "0123456789abcdef" ∅.
Proof.
  apply (export_name_collision (H := first_inserted)). reflexivity.
Defined.

(** ** A run of [main] *)

Lemma get_part_chat_within net fuel video_id start_seconds stop_seconds n chats n' :
  get_part_chat net fuel video_id start_seconds stop_seconds n = Some (Ok chats, n') →
  Forall (within stop_seconds) chats.
Proof.
  unfold get_part_chat.
  destruct (get_video_start_time _ _ _) as [[start_time|e] n1]; [|done].
  by apply get_part_chat_loop_below_end.
Qed.

Section MainRun.
Context `{PySet}.

(** X13.  A run of [main] that returns touches no file but the one named
    after the drawn identifier.  Either it leaves the files as they were, or
    the document it writes is a list that is not empty and in which every
    offset, relative to the start of the window, is at most the length of
    the window, [end_seconds - start_seconds]. *)
Theorem main_writes_window_offsets net fuel video_id start_seconds end_seconds
    keywords hex fs n fs' n' :
  main net fuel video_id start_seconds end_seconds keywords hex fs n
    = Some (Ok fs', n') →
  (∀ name, name ≠ export_name hex → fs' !! name = fs !! name) ∧
  (fs' = fs ∨
   ∃ out, out ≠ [] ∧
          fs' !! export_name hex = Some (map model_dump out) ∧
          Forall (λ x, (ExportChat.offset x
                        ≤ float_of_int end_seconds - float_of_int start_seconds)%Qc) out).
Proof.
  unfold main.
  destruct (get_part_chat _ _ _ _ _ _) as [[[chats|e] n1]|] eqn:Hget; [|done|done].
  apply get_part_chat_within in Hget.
  destruct (search_keywords chats (str_iter keywords) start_seconds)
    as [|c matched] eqn:Hsearch.
  - intros [= <- <-]. split; [done | by left].
  - intros [= <- <-]. split.
    + intros name Hne. unfold export. by rewrite lookup_insert_ne.
    + right. exists (final_chats (c :: matched) start_seconds).
      split; [|split].
      * intros Hnil.
        assert (Hin : ExportChat.from_simple_chat c start_seconds
                        ∈ final_chats (c :: matched) start_seconds).
        { apply final_chats_elem. exists c. split; [left | done]. }
        rewrite Hnil in Hin. by apply elem_of_nil in Hin.
      * unfold export. by rewrite lookup_insert_eq.
      * apply Forall_forall. intros x (r & Hr & ->)%final_chats_elem.
        rewrite <- Hsearch in Hr. apply search_keywords_elem in Hr as [Hr _].
        rewrite Forall_forall in Hget. specialize (Hget r Hr).
        unfold within in Hget. simpl. unfold Qcminus.
        by apply Qcplus_le_mono_r.
Qed.
End MainRun.

Lemma main_writes_window_offsets_witness :
  ∃ out, out ≠ [] ∧
    export (H := first_inserted) [record "b" "yo" 95; record "b" "yo" 95] 60
      "0123456789abcdef0123456789abcdef" ∅
      !! export_name "0123456789abcdef0123456789abcdef"
    = Some (map model_dump out) ∧
    Forall (λ x, (ExportChat.offset x ≤ float_of_int 120 - float_of_int 60)%Qc) out.
Proof.
  destruct (main_writes_window_offsets (H := first_inserted)
              (constant_feed [entry "a" "hi" 90; entry "b" "yo" 95] false)
              1 1 60 120 "oy" "0123456789abcdef0123456789abcdef" ∅ 0
              (export (H := first_inserted) [record "b" "yo" 95; record "b" "yo" 95] 60
                 "0123456789abcdef0123456789abcdef" ∅) 3)
    as [_ [Hsame|Hout]].
  - by_evaluation.
  - exfalso. apply (f_equal (λ m, m !! export_name "0123456789abcdef0123456789abcdef")) in Hsame.
    unfold export in Hsame. by rewrite lookup_insert_eq, lookup_empty in Hsame.
  - exact Hout.
Defined.

(** ** The times of the command line *)

Lemma split_on_not_nil sep s : split_on sep s ≠ [].
Proof.
  destruct s as [|a s]; simpl; [done|].
  destruct (Ascii.eqb a sep); [done|]. by destruct (split_on sep s).
Qed.

Lemma split_on_length sep s : length (split_on sep s) = S (occurrences sep s).
Proof.
  induction s as [|a s IH]; simpl; [done|].
  destruct (Ascii.eqb a sep); simpl; [by rewrite IH|].
  destruct (split_on sep s); simpl in *; lia.
Qed.

Lemma split_on_fields sep s : Forall (λ w, occurrences sep w = 0) (split_on sep s).
Proof.
  induction s as [|a s IH]; simpl; [by constructor|].
  destruct (Ascii.eqb a sep) eqn:Ha; [by constructor|].
  destruct (split_on sep s) as [|w ws]; [constructor; [simpl; by rewrite Ha | constructor]|].
  apply Forall_cons in IH as [Hw Hws].
  constructor; [simpl; by rewrite Ha, Hw | done].
Qed.

(** Joining the fields of a string gives the string back. *)
Lemma join_with_split_on sep s : join_with sep (split_on sep s) = s.
Proof.
  induction s as [|a s IH]; [done|]. cbn [split_on].
  destruct (Ascii.eqb a sep) eqn:Ha.
  - apply Ascii.eqb_eq in Ha as ->.
    cbn [join_with]. pose proof (split_on_not_nil sep s) as Hne.
    destruct (split_on sep s) as [|w ws] eqn:Hs; [done|].
    by rewrite IH.
  - destruct (split_on sep s) as [|w ws] eqn:Hs; [by apply split_on_not_nil in Hs|].
    cbn [join_with] in *. destruct ws as [|w' ws].
    + by rewrite IH.
    + rewrite append_String. by rewrite IH.
Qed.

Lemma split_on_no_sep sep w : occurrences sep w = 0 → split_on sep w = [w].
Proof.
  induction w as [|a w IH]; simpl; [done|].
  destruct (Ascii.eqb a sep); [done|]. intros Hw. by rewrite IH.
Qed.

Lemma split_on_app sep w rest :
  occurrences sep w = 0 →
  split_on sep (w ++ String sep rest) = w :: split_on sep rest.
Proof.
  induction w as [|a w IH]; intros Hw.
  - change (EmptyString ++ String sep rest)%string with (String sep rest).
    simpl. by rewrite Ascii.eqb_refl.
  - rewrite append_String. simpl in *.
    destruct (Ascii.eqb a sep); [done|]. by rewrite IH.
Qed.

(** X14.  [get_sec] returns a number exactly for the strings made of three
    fields without a colon, separated by two colons, each of which [int]
    reads; the number is then 3600 times the first plus 60 times the second
    plus the third.  The fields are not checked against any range, and a
    string with fewer or more than two colons raises [ValueError]. *)
Theorem get_sec_reads_three_fields (int : string → option Z) time_str v :
  (get_sec int time_str = Some v ↔
   ∃ h m s h' m' s',
     time_str = (h ++ ":" ++ m ++ ":" ++ s)%string ∧
     occurrences colon h = 0 ∧ occurrences colon m = 0 ∧ occurrences colon s = 0 ∧
     int h = Some h' ∧ int m = Some m' ∧ int s = Some s' ∧
     v = (h' * 3600 + m' * 60 + s')%Z) ∧
  (occurrences colon time_str ≠ 2 → get_sec int time_str = None).
Proof.
  split.
  - split.
    + unfold get_sec. intros Hget.
      pose proof (join_with_split_on colon time_str) as Hjoin.
      pose proof (split_on_fields colon time_str) as Hfields.
      destruct (split_on colon time_str) as [|h [|m [|s [|]]]]; try done.
      apply Forall_cons in Hfields as [Hh Hfields].
      apply Forall_cons in Hfields as [Hm Hfields].
      apply Forall_cons in Hfields as [Hs _].
      destruct (int h) as [h'|] eqn:Hih; [|done].
      destruct (int m) as [m'|] eqn:Him; [|done].
      destruct (int s) as [s'|] eqn:His; [|done].
      simpl in Hget. injection Hget as <-.
      exists h, m, s, h', m', s'. by rewrite <- Hjoin.
    + intros (h & m & s & h' & m' & s' & -> & Hh & Hm & Hs & Hih & Him & His & ->).
      unfold get_sec.
      change (h ++ ":" ++ m ++ ":" ++ s)%string
        with (h ++ String colon (m ++ String colon s))%string.
      rewrite (split_on_app _ _ _ Hh), (split_on_app _ _ _ Hm), (split_on_no_sep _ _ Hs).
      by rewrite Hih, Him, His.
  - intros Hn. unfold get_sec.
    pose proof (split_on_length colon time_str) as Hl.
    destruct (split_on colon time_str) as [|h [|m [|s [|]]]]; try done.
    simpl in Hl. lia.
Qed.

Lemma get_sec_reads_three_fields_witness :
  get_sec int_of_digits "12:30" = None.
Proof.
  by apply (proj2 (get_sec_reads_three_fields int_of_digits "12:30" 0)).
Defined.

(** Times read with [int_of_digits]: hours, minutes and seconds; minutes
    beyond 59; a field missing. *)
Example get_sec_examples :
  get_sec int_of_digits "01:02:03" = Some 3723%Z ∧
  get_sec int_of_digits "0:90:0" = Some 5400%Z ∧
  get_sec int_of_digits "12:30" = None ∧
  get_sec int_of_digits "1::3" = None.
Proof. repeat split. Qed.

(** ** The order of a page and the cursor of the next one *)

Lemma Forall2_StronglySorted {A B} (R : A → B → Prop) (S1 : A → A → Prop)
    (S2 : B → B → Prop) l1 l2 :
  (∀ a b a' b', R a a' → R b b' → S1 a b → S2 a' b') →
  Forall2 R l1 l2 → StronglySorted S1 l1 → StronglySorted S2 l2.
Proof.
  intros Hmono. induction 1 as [|a a' l1 l2 Ha Hl IH]; intros Hs; [constructor|].
  apply StronglySorted_inv in Hs as [Hs Hhd].
  constructor; [by apply IH|].
  clear IH Hs. induction Hl as [|b b' l1 l2 Hb Hl IH]; [constructor|].
  apply Forall_cons in Hhd as [Hab Hhd].
  constructor; [by eapply Hmono | by apply IH].
Qed.

Lemma Forall2_last {A B} (R : A → B → Prop) l1 l2 a :
  Forall2 R l1 l2 → last l1 = Some a → ∃ b, last l2 = Some b ∧ R a b.
Proof.
  induction 1 as [|x y l1 l2 Hxy Hl IH]; [done|].
  destruct Hl as [|x' y' l1 l2 Hxy' Hl].
  - simpl. intros [= <-]. by exists y.
  - intros Hlast. apply IH. exact Hlast.
Qed.

Lemma from_raw_data_offset raw_data start_time r :
  SimpleChat.from_raw_data raw_data start_time = Ok r →
  SimpleChat.offset r = (createdAt (node raw_data) - start_time)%Qc ∧
  SimpleChat.cursor r = edge_cursor raw_data.
Proof.
  unfold SimpleChat.from_raw_data. destruct (commenter _); [|done].
  by intros [= <-].
Qed.

(** X15.  The fetchers keep the order of the feed.  When the entries with a
    commenter of a reply are in ascending order of creation time, the
    records of the page either fetcher returns are in ascending order of
    offset, whatever the anchor. *)
Theorem page_keeps_chronological_order net video_id offset cursor start_time n
    edges hasNextPage :
  edges ≠ [] →
  StronglySorted (λ a b, (createdAt (node a) ≤ createdAt (node b))%Qc)
    (List.filter (λ i, bool_decide (is_Some (commenter (node i)))) edges) →
  (net n (VideoCommentByOffsetReq video_id offset) = Reply (Comments edges hasNextPage) →
   ∃ page,
     get_chat_by_offset net video_id offset start_time n = (Ok page, S n) ∧
     StronglySorted (λ a b, (SimpleChat.offset a ≤ SimpleChat.offset b)%Qc) (chats page)) ∧
  (net n (VideoCommentByCursorReq video_id cursor) = Reply (Comments edges hasNextPage) →
   ∃ page,
     get_chat_by_cursor net video_id cursor start_time n = (Ok page, S n) ∧
     StronglySorted (λ a b, (SimpleChat.offset a ≤ SimpleChat.offset b)%Qc) (chats page)).
Proof.
  intros Hne Hs.
  destruct (page_of_response_comments edges hasNextPage start_time Hne)
    as (last_edge & records & _ & Hf & Hp).
  assert (Hsorted : StronglySorted
            (λ a b, (SimpleChat.offset a ≤ SimpleChat.offset b)%Qc) records).
  { eapply Forall2_StronglySorted; [|exact Hf|exact Hs].
    intros a b a' b' [Ha _]%from_raw_data_offset [Hb _]%from_raw_data_offset Hab.
    simpl in *. rewrite Ha, Hb. unfold Qcminus. by apply Qcplus_le_mono_r. }
  split; intros Hr.
  - eexists. rewrite (get_chat_by_offset_reply _ _ _ _ _ _ Hr), Hp. split; done.
  - eexists. rewrite (get_chat_by_cursor_reply _ _ _ _ _ _ Hr), Hp. split; done.
Qed.

Lemma page_keeps_chronological_order_witness :
  ∃ page,
    get_chat_by_offset
      (constant_feed [entry "a" "x" 3; null_entry "b" 1; entry "c" "z" 9] true)
      1 0 (float_of_int 2) 0 = (Ok page, 1) ∧
    StronglySorted (λ a b, (SimpleChat.offset a ≤ SimpleChat.offset b)%Qc) (chats page).
Proof.
  destruct (page_keeps_chronological_order
              (constant_feed [entry "a" "x" 3; null_entry "b" 1; entry "c" "z" 9] true)
              1 0 "" (float_of_int 2) 0
              [entry "a" "x" 3; null_entry "b" 1; entry "c" "z" 9] true) as [Ho _].
  - done.
  - simpl. repeat constructor. by apply float_gtb_false.
  - by apply Ho.
Defined.

(** X16.  The cursor a loop continues from is the cursor of the last entry
    of the page that has a commenter, which need not be the last entry of
    the page.  When the reply to the request of an iteration reports a next
    page and [last_kept] is its last entry with a commenter, the unbounded
    loop goes on with the records of the page appended and the cursor of
    [last_kept], and so does the bounded loop when all these records are
    within the bound. *)
Theorem loops_continue_from_last_commenter net fuel video_id start_seconds
    stop_seconds start_time cursor result n edges last_kept :
  last (List.filter (λ i, bool_decide (is_Some (commenter (node i)))) edges)
    = Some last_kept →
  ∃ page,
    page_of_response (Comments edges true) start_time = Ok page ∧
    (net n (fetch_request video_id 0 cursor) = Reply (Comments edges true) →
     get_all_chat_loop net (S fuel) video_id start_time cursor result n
     = get_all_chat_loop net fuel video_id start_time
         (Some (edge_cursor last_kept)) (result ++ chats page) (S n)) ∧
    (net n (fetch_request video_id start_seconds cursor) = Reply (Comments edges true) →
     Forall (within stop_seconds) (chats page) →
     get_part_chat_loop net (S fuel) video_id start_seconds stop_seconds start_time
       cursor result n
     = get_part_chat_loop net fuel video_id start_seconds stop_seconds start_time
         (Some (edge_cursor last_kept)) (result ++ chats page) (S n)).
Proof.
  intros Hlast.
  assert (Hne : edges ≠ []) by (by intros ->).
  destruct (page_of_response_comments edges true start_time Hne)
    as (last_edge & records & _ & Hf & Hp).
  destruct (Forall2_last _ _ _ _ Hf Hlast) as (c & Hc & Hraw).
  apply from_raw_data_offset in Hraw as [_ Hcur].
  eexists. split; [exact Hp|]. split.
  - intros Hr. cbn [get_all_chat_loop]. rewrite (fetch_reply _ _ _ _ _ _ _ Hr), Hp.
    simpl. unfold last_item. by rewrite Hc, Hcur.
  - intros Hr Hin. cbn [get_part_chat_loop].
    rewrite (fetch_reply _ _ _ _ _ _ _ Hr), Hp. simpl in *.
    rewrite (consume_all _ _ _ Hin). unfold last_item. by rewrite Hc, Hcur.
Qed.

Lemma loops_continue_from_last_commenter_witness :
  ∃ page,
    page_of_response (Comments [entry "a" "x" 3; null_entry "b" 5] true) (float_of_int 0)
      = Ok page ∧
    get_all_chat_loop (constant_feed [entry "a" "x" 3; null_entry "b" 5] true)
      1 1 (float_of_int 0) None [] 2
    = get_all_chat_loop (constant_feed [entry "a" "x" 3; null_entry "b" 5] true)
        0 1 (float_of_int 0) (Some "a"%string) ([] ++ chats page) 3.
Proof.
  destruct (loops_continue_from_last_commenter
              (constant_feed [entry "a" "x" 3; null_entry "b" 5] true)
              0 1 0 10 (float_of_int 0) None [] 2
              [entry "a" "x" 3; null_entry "b" 5] (entry "a" "x" 3) eq_refl)
    as (page & Hp & Hall & _).
  exists page. split; [done|]. by apply Hall.
Defined.
